(** * bear: from process traces to a compilation database

    A shallow embedding of [analyzer/bear.py].  Python values are modelled
    as follows: a [str] is a [list ascii]; a [dict] with string keys is a
    [gmap string pyval]; the [set] used by [merge] is a [gset]; an exception
    is a value of [exn] carried by the [result] monad. *)

From Stdlib Require Import Ascii String List ZArith Lia Bool.
From stdpp Require Import base option list strings gmap.

Set Warnings "-clear-no-such-hyp,-level-tolerance".

(** ** Python values and exceptions *)

Abbreviation pystr := (list ascii).

(** A Python string literal. *)
Definition str (s : string) : pystr := list_ascii_of_string s.

Inductive exn : Type :=
| KeyError (key : string)
| IndexError
| ValueError (msg : string)
| TypeError
| AttributeError
| IOError (path : pystr).

Inductive result (A : Type) : Type :=
| Ok (a : A)
| Raise (e : exn).
Arguments Ok {A} a.
Arguments Raise {A} e.

#[global] Instance result_ret : MRet result := fun A a => Ok a.
#[global] Instance result_bind : MBind result := fun A B f m =>
  match m with
  | Ok a => f a
  | Raise e => Raise e
  end.

(** The values stored in the dictionaries that travel through the pipeline:
    strings, and the argument vector of a process record. *)
Inductive pyval : Type :=
| PStr (s : pystr)
| PList (l : list pystr).

(** [d[key]] *)
Definition getitem (d : gmap string pyval) (key : string) : result pyval :=
  match d !! key with
  | Some v => Ok v
  | None => Raise (KeyError key)
  end.

(** [l[i]] for a non-negative index *)
Definition getidx {A} (l : list A) (i : nat) : result A :=
  match l !! i with
  | Some v => Ok v
  | None => Raise IndexError
  end.

Definition ascii_eqb (a b : ascii) : bool := bool_decide (a = b).

(** [c in l] for a character [c] *)
Definition mem (c : ascii) (l : list ascii) : bool := existsb (ascii_eqb c) l.

Definition nonempty {A} (l : list A) : bool :=
  match l with [] => false | _ => true end.

Definition is_nil {A} (l : list A) : bool :=
  match l with [] => true | _ => false end.

(** [s.split(sep)] for a one-character separator: never the empty list. *)
Fixpoint str_split (sep : ascii) (s : pystr) : list pystr :=
  match s with
  | [] => [[]]
  | c :: s' =>
      if ascii_eqb c sep then [] :: str_split sep s'
      else match str_split sep s' with
           | [] => [[c]]
           | w :: ws => (c :: w) :: ws
           end
  end.

(** [sep.join(l)] *)
Fixpoint str_join (sep : pystr) (l : list pystr) : pystr :=
  match l with
  | [] => []
  | [x] => x
  | x :: l' => x ++ sep ++ str_join sep l'
  end.

(** [s.startswith(c)] and [s.endswith(c)] for a one-character [c] *)
Definition startswith (c : ascii) (s : pystr) : bool :=
  match s with
  | c' :: _ => ascii_eqb c' c
  | [] => false
  end.

Definition endswith (c : ascii) (s : pystr) : bool :=
  match last s with
  | Some c' => ascii_eqb c' c
  | None => false
  end.

(** ** The files the pipeline reads

    [fs_read] is what [open(name).read()] gives ([None]: the file cannot be
    opened), [fs_exists] is [os.path.exists], [fs_glob] the names
    [glob.iglob] enumerates for a pattern, [fs_json] what [json.load] makes
    of a file, [fs_writable] whether a file can be opened for writing, and
    [fs_cwd] is [os.getcwd()]. *)
Record filesystem : Type := {
  fs_read : pystr -> option pystr;
  fs_exists : pystr -> bool;
  fs_glob : pystr -> list pystr;
  fs_json : pystr -> result (list (gmap string pyval));
  fs_writable : pystr -> bool;
  fs_cwd : pystr
}.

Definition RS : ascii := ascii_of_nat 30.
Definition US : ascii := ascii_of_nat 31.

(** [collect.parse]: one trace file to one process record. *)
Definition parse (fs : filesystem) (filename : pystr) : result (gmap string pyval) :=
  match fs_read fs filename with
  | None => Raise (IOError filename)
  | Some content =>
      let records := str_split RS content in
      pid ← getidx records 0;
      ppid ← getidx records 1;
      function ← getidx records 2;
      directory ← getidx records 3;
      command ← getidx records 4;
      Ok (<["pid" := PStr pid]>
          (<["ppid" := PStr ppid]>
           (<["function" := PStr function]>
            (<["directory" := PStr directory]>
             (<["command" := PList (removelast (str_split US command))]> ∅)))))
  end.

(** ** Regular expressions ([re])

    The patterns of the source use literals, the classes [[^c]] and
    [[...]], [.], grouping, alternation, [*] and [?], between [^] and [$].
    [matches] decides membership by derivatives; [dollar_match] is
    [pattern.match(s) is not None] for a pattern [^body$]. *)
Module Re.

Inductive regex : Type :=
| Void
| Eps
| Chr (c : ascii)
| NotChr (c : ascii)
| OneOf (cs : list ascii)
| Dot
| Seq (r1 r2 : regex)
| Alt (r1 r2 : regex)
| Star (r : regex)
| Opt (r : regex).

Definition newline : ascii := ascii_of_nat 10.

Fixpoint nullable (r : regex) : bool :=
  match r with
  | Void | Chr _ | NotChr _ | OneOf _ | Dot => false
  | Eps | Star _ | Opt _ => true
  | Seq r1 r2 => nullable r1 && nullable r2
  | Alt r1 r2 => nullable r1 || nullable r2
  end.

Definition of_bool (b : bool) : regex := if b then Eps else Void.

Fixpoint deriv (a : ascii) (r : regex) : regex :=
  match r with
  | Void | Eps => Void
  | Chr c => of_bool (ascii_eqb a c)
  | NotChr c => of_bool (negb (ascii_eqb a c))
  | OneOf cs => of_bool (existsb (ascii_eqb a) cs)
  | Dot => of_bool (negb (ascii_eqb a newline))
  | Seq r1 r2 =>
      if nullable r1 then Alt (Seq (deriv a r1) r2) (deriv a r2)
      else Seq (deriv a r1) r2
  | Alt r1 r2 => Alt (deriv a r1) (deriv a r2)
  | Star r1 => Seq (deriv a r1) (Star r1)
  | Opt r1 => deriv a r1
  end.

Fixpoint matches (r : regex) (s : pystr) : bool :=
  match s with
  | [] => nullable r
  | a :: s' => matches (deriv a r) s'
  end.

(** [$] (without MULTILINE) matches at the end of the string and also just
    before a newline that ends the string. *)
Definition dollar_match (body : regex) (s : pystr) : bool :=
  matches body s || (endswith newline s && matches body (removelast s)).

(** The words of a regular expression. *)
Inductive lang : regex -> pystr -> Prop :=
| lang_eps : lang Eps []
| lang_chr c : lang (Chr c) [c]
| lang_notchr c a : a <> c -> lang (NotChr c) [a]
| lang_oneof cs a : In a cs -> lang (OneOf cs) [a]
| lang_dot a : a <> newline -> lang Dot [a]
| lang_seq r1 r2 s1 s2 : lang r1 s1 -> lang r2 s2 -> lang (Seq r1 r2) (s1 ++ s2)
| lang_alt_l r1 r2 s : lang r1 s -> lang (Alt r1 r2) s
| lang_alt_r r1 r2 s : lang r2 s -> lang (Alt r1 r2) s
| lang_star_nil r : lang (Star r) []
| lang_star_cons r s1 s2 : lang r s1 -> lang (Star r) s2 -> lang (Star r) (s1 ++ s2)
| lang_opt_none r : lang (Opt r) []
| lang_opt_some r s : lang r s -> lang (Opt r) s.

(** A sequence of literal characters. *)
Fixpoint lit (s : pystr) : regex :=
  match s with
  | [] => Eps
  | [c] => Chr c
  | c :: s' => Seq (Chr c) (lit s')
  end.

Fixpoint seqs (rs : list regex) : regex :=
  match rs with
  | [] => Eps
  | [r] => r
  | r :: rs' => Seq r (seqs rs')
  end.

End Re.

(** ** [shlex.split] (POSIX mode, [whitespace_split], no commenters)

    The lexer of [shlex.read_token], with its states written as the source
    writes them: [" "] between tokens, ["a"] inside a word, a quote
    character inside quotes, the backslash after an escape. *)
Module Shlex.

Definition whitespace : list ascii :=
  [" "%char; ascii_of_nat 9; ascii_of_nat 13; ascii_of_nat 10].
Definition quotes : list ascii := ["'"%char; ascii_of_nat 34].
Definition escape : list ascii := ["\"%char].
Definition escapedquotes : list ascii := [ascii_of_nat 34].

Definition emit (token : pystr) (r : result (list pystr)) : result (list pystr) :=
  match r with
  | Ok l => Ok (token :: l)
  | Raise e => Raise e
  end.

Fixpoint lex (state escapedstate : ascii) (token : pystr) (quoted : bool)
    (input : pystr) : result (list pystr) :=
  match input with
  | [] =>
      if ascii_eqb state " " then Ok []
      else if mem state quotes then Raise (ValueError "No closing quotation")
      else if mem state escape then Raise (ValueError "No escaped character")
      else if negb quoted && negb (nonempty token) then Ok []
      else Ok [token]
  | nextchar :: rest =>
      if ascii_eqb state " " then
        if mem nextchar whitespace then
          if nonempty token || quoted
          then emit token (lex " " " " [] false rest)
          else lex " " escapedstate token quoted rest
        else if mem nextchar escape then lex nextchar "a" token quoted rest
        else if mem nextchar quotes then lex nextchar escapedstate token quoted rest
        else lex "a" escapedstate [nextchar] quoted rest
      else if mem state quotes then
        if ascii_eqb nextchar state then lex "a" escapedstate token true rest
        else if mem nextchar escape && mem state escapedquotes
        then lex nextchar state token true rest
        else lex state escapedstate (token ++ [nextchar]) true rest
      else if mem state escape then
        let token :=
          if mem escapedstate quotes && negb (ascii_eqb nextchar state)
             && negb (ascii_eqb nextchar escapedstate)
          then token ++ [state] else token in
        lex escapedstate escapedstate (token ++ [nextchar]) quoted rest
      else
        if mem nextchar whitespace then
          if nonempty token || quoted
          then emit token (lex " " " " [] false rest)
          else lex " " escapedstate token quoted rest
        else if mem nextchar quotes then lex nextchar escapedstate token quoted rest
        else if mem nextchar escape then lex nextchar "a" token quoted rest
        else lex "a" escapedstate (token ++ [nextchar]) quoted rest
  end.

Definition split (s : pystr) : result (list pystr) := lex " " " " [] false s.

End Shlex.

(** ** [os.path] (POSIX) *)
Module PosixPath.

Definition sep : ascii := "/"%char.

Definition isabs (s : pystr) : bool := startswith sep s.

Definition join (a b : pystr) : pystr :=
  if startswith sep b then b
  else if is_nil a || endswith sep a then a ++ b
  else a ++ sep :: b.

Definition dot : pystr := ["."%char].
Definition dotdot : pystr := ["."%char; "."%char].

Definition pystr_eqb (a b : pystr) : bool := bool_decide (a = b).

(** [path.startswith(prefix)] *)
Fixpoint starts_with (prefix path : pystr) : bool :=
  match prefix, path with
  | [], _ => true
  | c :: prefix', c' :: path' => ascii_eqb c' c && starts_with prefix' path'
  | _ :: _, [] => false
  end.

Definition initial_slashes (path : pystr) : nat :=
  if starts_with [sep] path then
    if starts_with [sep; sep] path && negb (starts_with [sep; sep; sep] path)
    then 2 else 1
  else 0.

(** One round of the loop of [normpath] over the components. *)
Definition norm_step (slashes : nat) (new_comps : list pystr) (comp : pystr)
  : list pystr :=
  if pystr_eqb comp [] || pystr_eqb comp dot then new_comps
  else if negb (pystr_eqb comp dotdot)
          || (Nat.eqb slashes 0 && is_nil new_comps)
          || match last new_comps with
             | Some l => pystr_eqb l dotdot
             | None => false
             end
       then new_comps ++ [comp]
       else removelast new_comps.

Definition normpath (path : pystr) : pystr :=
  match path with
  | [] => dot
  | _ =>
      let slashes := initial_slashes path in
      let comps := fold_left (norm_step slashes) (str_split sep path) [] in
      match repeat sep slashes ++ str_join [sep] comps with
      | [] => dot
      | p => p
      end
  end.

(** [os.path.abspath], with [os.getcwd()] as [cwd]. *)
Definition abspath (cwd path : pystr) : pystr :=
  normpath (if isabs path then path else join cwd path).

End PosixPath.

(** ** The command classifier ([analyzer.command])

    Modelled from the spec: [analyzer.command] is not part of the sources at
    hand.  Its [Action] is an enumeration with a [Compile] member, and its
    [parse] maps an argument vector to an action and the list of source-file
    operands. *)
Inductive Action : Type := Compile | Link | Other.

Record atoms : Type := { action : Action; files : list pystr }.

Definition is_compile (a : Action) : bool :=
  match a with Compile => true | _ => false end.

(** ** Typed reads

    The process records are made by [parse], whose ['command'] is a list and
    whose other fields are strings; the database entries hold strings. *)
Definition as_str (v : pyval) : result pystr :=
  match v with PStr s => Ok s | PList _ => Raise TypeError end.

Definition as_list (v : pyval) : result (list pystr) :=
  match v with PList l => Ok l | PStr _ => Raise TypeError end.

(** A loop body that may raise, run over a list from left to right. *)
Fixpoint traverse {A B} (f : A -> result B) (l : list A) : result (list B) :=
  match l with
  | [] => Ok []
  | x :: l' => y ← f x; ys ← traverse f l'; Ok (y :: ys)
  end.

(** ** The patterns of [known_compiler] and [cancel_parameter] *)
Definition dirs : Re.regex :=
  Re.Star (Re.Seq (Re.Star (Re.NotChr "/")) (Re.Chr "/")).
Definition triples : Re.regex :=
  Re.Star (Re.Seq (Re.Star (Re.NotChr "-")) (Re.Chr "-")).
Definition cc_or_pp : Re.regex := Re.Alt (Re.lit (str "cc")) (Re.lit (str "++")).
Definition digits : list ascii := str "0123456789".
Definition version (majors : list ascii) : Re.regex :=
  Re.Opt (Re.seqs [Re.Chr "-"; Re.OneOf majors; Re.Dot; Re.OneOf digits]).

(** [^([^/]*/)*c(c|\+\+)$] *)
Definition pattern_cc : Re.regex :=
  Re.seqs [dirs; Re.Chr "c"; Re.Alt (Re.Chr "c") (Re.lit (str "++"))].
(** [^([^/]*/)*([^-]*-)*g(cc|\+\+)(-[2345].[0-9])?$] *)
Definition pattern_gcc : Re.regex :=
  Re.seqs [dirs; triples; Re.Chr "g"; cc_or_pp; version (str "2345")].
(** [^([^/]*/)*([^-]*-)*clang(\+\+)?(-[23].[0-9])?$] *)
Definition pattern_clang : Re.regex :=
  Re.seqs [dirs; triples; Re.lit (str "clang"); Re.Opt (Re.lit (str "++"));
           version (str "23")].
(** [^([^/]*/)*llvm-g(cc|\+\+)$] *)
Definition pattern_llvm : Re.regex :=
  Re.seqs [dirs; Re.lit (str "llvm-g"); cc_or_pp].
(** [^-cc1$] *)
Definition pattern_cc1 : Re.regex := Re.lit (str "-cc1").

(** ** [collect] *)

Definition known_compiler (command : list pystr) : result bool :=
  let patterns := [pattern_cc; pattern_gcc; pattern_clang; pattern_llvm] in
  executable ← getidx command 0;
  Ok (existsb (fun pattern => Re.dollar_match pattern executable) patterns).

Definition cancel_parameter (command : list pystr) : bool :=
  let patterns := [pattern_cc1] in
  existsb (fun pattern =>
    existsb (fun arg => Re.dollar_match pattern arg) (tail command)) patterns.

(** The test of [general_filter] on one record: whether it is yielded. *)
Definition general_filter (record : gmap string pyval) : result bool :=
  command ← getitem record "command" ≫= as_list;
  known ← known_compiler command;
  Ok (known && negb (cancel_parameter command)).

Definition join_command (args : list pystr) : pystr := str_join (str " ") args.

Section Bear.

(** [analyzer.command.parse], called as [cmdparse({'command': c}, lambda x: x)]. *)
Context (cmdparse : list pystr -> result atoms).

(** The entries [format_record] yields for one record. *)
Definition format_record (fs : filesystem) (record : gmap string pyval)
  : result (list (gmap string pyval)) :=
  command ← getitem record "command" ≫= as_list;
  atoms ← cmdparse command;
  if is_compile (action atoms) then
    traverse (fun filename =>
      directory ← getitem record "directory";
      command ← getitem record "command" ≫= as_list;
      Ok (<["directory" := directory]>
          (<["command" := PStr (join_command command)]>
           (<["file" := PStr (PosixPath.abspath (fs_cwd fs) filename)]> ∅))))
      (files atoms)
  else Ok [].

(** [chain = lambda x: format_record(general_filter(x))]: the two generators
    are pulled one record at a time, so a record is filtered and expanded
    before the next one is looked at. *)
Fixpoint chain (fs : filesystem) (records : list (gmap string pyval))
  : result (list (gmap string pyval)) :=
  match records with
  | [] => Ok []
  | record :: rest =>
      keep ← general_filter record;
      entries ← (if keep : bool then format_record fs record else Ok []);
      more ← chain fs rest;
      Ok (entries ++ more)
  end.

Definition collect (fs : filesystem) (filtering : bool) (destination : pystr)
  : result (list (gmap string pyval)) :=
  generator ← traverse (parse fs)
                (fs_glob fs (PosixPath.join destination (str "cmd.*")));
  if filtering then chain fs generator else Ok generator.

(** ** [merge] *)

Definition hash_cdb (entry : gmap string pyval) : result pystr :=
  c ← getitem entry "command";
  tokens ← match c with
           | PStr s => Shlex.split s
           | PList _ => Raise AttributeError
           end;
  let command := str_join (str " ") (tail tokens) in
  f ← getitem entry "file";
  d ← getitem entry "directory";
  match f, d with
  | PStr f, PStr d => Ok (str_join (str "<>") [rev f; rev d; command])
  | _, _ => Raise TypeError
  end.

(** [duplicate(state, entry)]: the new state and the returned flag. *)
Definition duplicate (fs : filesystem) (state : gset pystr)
    (entry : gmap string pyval) : result (gset pystr * bool) :=
  file ← getitem entry "file" ≫= as_str;
  if fs_exists fs file then
    entry_hash ← hash_cdb entry;
    if bool_decide (entry_hash ∈ state) then Ok (state, true)
    else Ok ({[entry_hash]} ∪ state, false)
  else Ok (state, true).

(** The list comprehension of [merge], from a given state. *)
Fixpoint merge_from (fs : filesystem) (state : gset pystr)
    (entries : list (gmap string pyval)) : result (list (gmap string pyval)) :=
  match entries with
  | [] => Ok []
  | entry :: rest =>
      '(state', dup) ← duplicate fs state entry;
      kept ← merge_from fs state' rest;
      Ok (if dup : bool then kept else entry :: kept)
  end.

Definition merge (fs : filesystem) (old new : list (gmap string pyval))
  : result (list (gmap string pyval)) :=
  merge_from fs ∅ (old ++ new).

(** ** [main] *)

Record arguments : Type := {
  build : list pystr;
  cdb : pystr;
  append : option bool;
  filtering : option bool
}.

(** [subprocess.call] of the build with the trace directory in its
    environment: the exit code and the files it leaves behind. *)
Context (subprocess_call : list pystr -> pystr -> result (Z * filesystem)).
(** The name [TemporaryDirectory(prefix='bear-')] gives. *)
Context (tmpdir : pystr).

Definition run_build (command : list pystr) (destination : pystr)
  : result (Z * filesystem) :=
  subprocess_call command destination.

Definition load_current_cdb (fs : filesystem) (filename : pystr)
  : result (list (gmap string pyval)) :=
  if fs_exists fs filename then fs_json fs filename else Ok [].

(** [main] gives the value it returns and the list it dumps into the
    database file. *)
Definition main (args : arguments) : result (Z * list (gmap string pyval)) :=
  '(exit_code, fs) ← run_build (build args) tmpdir;
  let append := from_option id false (append args) in
  currents ← (if append then load_current_cdb fs (cdb args) else Ok []);
  let filtering := from_option id false (filtering args) in
  commands ← (new ← collect fs (negb filtering) tmpdir; merge fs currents new);
  if fs_writable fs (cdb args) then Ok (exit_code, commands)
  else Raise (IOError (cdb args)).

End Bear.

(** * Specification-level definitions *)

(** The text the interception library writes for one process. *)
Definition trace_content (pid ppid function directory : pystr)
    (tokens : list pystr) (z : pystr) : pystr :=
  pid ++ RS :: ppid ++ RS :: function ++ RS :: directory ++ RS ::
  concat (map (fun t => t ++ [US]) tokens) ++ z.

Definition process_record (pid ppid function directory : pystr)
    (command : list pystr) : gmap string pyval :=
  <["pid" := PStr pid]>
    (<["ppid" := PStr ppid]>
      (<["function" := PStr function]>
        (<["directory" := PStr directory]>
          (<["command" := PList command]> ∅)))).

(** ** What [merge] looks at in an entry

    [entry_key] is the part of [duplicate] that does not depend on the
    state: the existence check and, when the file exists, the hash. *)
Definition entry_key (fs : filesystem) (entry : gmap string pyval)
  : result (option pystr) :=
  file ← getitem entry "file" ≫= as_str;
  if fs_exists fs file then (h ← hash_cdb entry; Ok (Some h)) else Ok None.

Definition is_ok {A} (r : result A) : bool :=
  match r with Ok _ => true | Raise _ => false end.

(** An entry [merge] can process without raising. *)
Definition entry_ok (fs : filesystem) (entry : gmap string pyval) : bool :=
  is_ok (entry_key fs entry).

Definition key_of (fs : filesystem) (entry : gmap string pyval) : option pystr :=
  match entry_key fs entry with Ok k => k | Raise _ => None end.

(** The comprehension of [merge] over entries whose keys are known. *)
Fixpoint select {E} (key : E -> option pystr) (state : gset pystr) (l : list E)
  : list E :=
  match l with
  | [] => []
  | e :: l' =>
      match key e with
      | Some h =>
          if bool_decide (h ∈ state) then select key state l'
          else e :: select key ({[h]} ∪ state) l'
      | None => select key state l'
      end
  end.

(** The state after a pass over [l]. *)
Definition seen {E} (key : E -> option pystr) (state : gset pystr) (l : list E)
  : gset pystr :=
  list_to_set (omap key l) ∪ state.

(** The entries of [l] that have a key which none of the entries before them
    has: [earlier] are the entries already passed. *)
Fixpoint first_seen {E} (key : E -> option pystr) (earlier l : list E) : list E :=
  match l with
  | [] => []
  | e :: l' =>
      match key e with
      | Some h =>
          if bool_decide (Some h ∈ map key earlier)
          then first_seen key (earlier ++ [e]) l'
          else e :: first_seen key (earlier ++ [e]) l'
      | None => first_seen key (earlier ++ [e]) l'
      end
  end.

(** A database entry. *)
Definition cdb_entry (directory command file : pystr) : gmap string pyval :=
  <["directory" := PStr directory]>
    (<["command" := PStr command]>
      (<["file" := PStr file]> ∅)).

#[global] Instance exn_eq_dec : EqDecision exn.
Proof. solve_decision. Defined.
#[global] Instance result_eq_dec {A} `{EqDecision A} : EqDecision (result A).
Proof. solve_decision. Defined.
#[global] Instance pyval_eq_dec : EqDecision pyval.
Proof. solve_decision. Defined.

(** An operand that is one plain name: no [/], and not empty, [.] or [..]. *)
Definition plain_name (operand : pystr) : bool :=
  negb (mem PosixPath.sep operand) && nonempty operand
  && negb (PosixPath.pystr_eqb operand PosixPath.dot)
  && negb (PosixPath.pystr_eqb operand PosixPath.dotdot).

(** The components [normpath] keeps are non-empty and free of [/]. *)
Definition component (c : pystr) : Prop := c <> [] /\ mem PosixPath.sep c = false.

(** * A build to run the pipeline on

    One process ran [cc -c a.c -o a.o] in [/src], another ran [/src/a.out]
    there; [/src/a.c] exists. *)

Definition field (s : string) : pystr := str s ++ [RS].
Definition token (s : string) : pystr := str s ++ [US].

Definition example_trace_cc : pystr :=
  field "4711" ++ field "4710" ++ field "execve" ++ field "/src" ++
  token "cc" ++ token "-c" ++ token "a.c" ++ token "-o" ++ token "a.o".

Definition example_trace_aout : pystr :=
  field "4712" ++ field "4710" ++ field "execve" ++ field "/src" ++
  token "/src/a.out".

(** The files after the build, seen by a process that runs in [cwd]. *)
Definition example_fs (cwd : string) : filesystem := {|
  fs_read := fun name =>
    if bool_decide (name = str "/tmp/bear-x/cmd.4711") then Some example_trace_cc
    else if bool_decide (name = str "/tmp/bear-x/cmd.4712") then Some example_trace_aout
    else if bool_decide (name = str "/tmp/bear-x/cmd.short") then Some (field "1" ++ field "0")
    else None;
  fs_exists := fun name => bool_decide (name = str "/src/a.c");
  fs_glob := fun pattern =>
    if bool_decide (pattern = str "/tmp/bear-x/cmd.*")
    then [str "/tmp/bear-x/cmd.4711"; str "/tmp/bear-x/cmd.4712"]
    else [];
  fs_json := fun _ => Ok [];
  fs_writable := fun _ => true;
  fs_cwd := str cwd
|}.

(** A classifier for the example: a command with [-c] compiles its [.c]
    operands. *)
Definition example_classify (command : list pystr) : result atoms :=
  Ok {| action := if bool_decide (str "-c" ∈ command) then Compile else Link;
        files := List.filter
                   (fun arg => PosixPath.starts_with (rev (str ".c")) (rev arg))
                   (tail command) |}.

(** * The names [known_compiler] accepts *)

Definition dir_prefix (p : pystr) : Prop :=
  p = [] \/ endswith "/" p = true.

Definition target_prefix (p : pystr) : Prop :=
  p = [] \/ endswith "/" p = true \/ endswith "-" p = true.

(** Nothing, or [-], a digit of [majors], one character that [separator]
    admits, and a digit. *)
Definition version_suffix (separator : ascii -> Prop) (majors : list ascii)
    (v : pystr) : Prop :=
  v = [] \/
  exists m x d, v = ["-"%char; m; x; d] /\ In m majors /\ separator x /\ In d digits.

(** The separator of a dotted version, and what [.] stands for in a pattern. *)
Definition is_dot (x : ascii) : Prop := x = "."%char.
Definition not_newline (x : ascii) : Prop := x <> Re.newline.

Inductive compiler_name (separator : ascii -> Prop) : pystr -> Prop :=
| name_cc p core :
    dir_prefix p -> core = str "cc" \/ core = str "c++" ->
    compiler_name separator (p ++ core)
| name_gcc p core v :
    target_prefix p -> core = str "gcc" \/ core = str "g++" ->
    version_suffix separator (str "2345") v ->
    compiler_name separator (p ++ core ++ v)
| name_clang p core v :
    target_prefix p -> core = str "clang" \/ core = str "clang++" ->
    version_suffix separator (str "23") v ->
    compiler_name separator (p ++ core ++ v)
| name_llvm p core :
    dir_prefix p -> core = str "llvm-gcc" \/ core = str "llvm-g++" ->
    compiler_name separator (p ++ core).

(** What the patterns match: [.] is any character but a newline, and [$]
    lets one newline follow the name. *)
Definition accepted_name (executable : pystr) : Prop :=
  compiler_name not_newline executable \/
  exists name, executable = name ++ [Re.newline] /\ compiler_name not_newline name.

(** ** The recognizer in the words of the specification

    The name after the last [/] is [cc], [c++], [llvm-gcc] or [llvm-g++], or
    it is an optional prefix ending in [-], then [gcc], [g++], [clang] or
    [clang++], then optionally [-] and a dotted version whose two numbers
    have one or two digits. *)
Definition basename (executable : pystr) : pystr :=
  default [] (last (str_split "/" executable)).

Definition spec_number (n : pystr) : bool :=
  match n with
  | [a] => mem a digits
  | [a; b] => mem a digits && mem b digits
  | _ => false
  end.

Definition spec_version (v : pystr) : bool :=
  match v with
  | [] => true
  | c :: v' =>
      ascii_eqb c "-" &&
      match str_split "." v' with
      | [major; minor] => spec_number major && spec_number minor
      | _ => false
      end
  end.

Definition spec_named (cores : list pystr) (name : pystr) : bool :=
  existsb (fun i =>
    let prefix := take i name in
    let rest := drop i name in
    (is_nil prefix || endswith "-" prefix) &&
    existsb (fun core =>
      PosixPath.starts_with core rest && spec_version (drop (length core) rest)) cores)
    (seq 0 (S (length name))).

Definition spec_known_compiler (executable : pystr) : bool :=
  let name := basename executable in
  PosixPath.pystr_eqb name (str "cc") || PosixPath.pystr_eqb name (str "c++")
  || spec_named [str "gcc"; str "g++"] name
  || spec_named [str "clang"; str "clang++"] name
  || PosixPath.pystr_eqb name (str "llvm-gcc")
  || PosixPath.pystr_eqb name (str "llvm-g++").

(** The two records of the example and the entries made from them. *)
Definition example_record_cc : gmap string pyval :=
  process_record (str "4711") (str "4710") (str "execve") (str "/src")
    [str "cc"; str "-c"; str "a.c"; str "-o"; str "a.o"].

Definition example_record_cc1 : gmap string pyval :=
  process_record (str "4713") (str "4711") (str "execve") (str "/src")
    [str "clang"; str "-cc1"; str "-emit-obj"; str "a.c"].

Definition example_entry_cc : gmap string pyval :=
  cdb_entry (str "/src") (str "cc -c a.c -o a.o") (str "/src/a.c").

Definition example_entry_clang : gmap string pyval :=
  cdb_entry (str "/src") (str "clang -c a.c -o a.o") (str "/src/a.c").

Definition example_entry_gone : gmap string pyval :=
  cdb_entry (str "/src") (str "cc -c gone.c -o gone.o") (str "/src/gone.c").

(** The build of the example returns 2. *)
Definition example_build (command : list pystr) (destination : pystr)
  : result (Z * filesystem) :=
  Ok (2%Z, example_fs "/src").

Definition example_arguments (disable_filter : bool) : arguments := {|
  build := [str "make"];
  cdb := str "compile_commands.json";
  append := Some false;
  filtering := Some disable_filter
|}.

(** * Further definitions *)

(** A character [shlex] copies into the current word: no whitespace, no
    quote, no backslash. *)
Definition plain_char (c : ascii) : bool :=
  negb (mem c Shlex.whitespace) && negb (mem c Shlex.quotes)
  && negb (mem c Shlex.escape).

(** An argument made of such characters, and not empty. *)
Definition plain_word (w : pystr) : bool := nonempty w && forallb plain_char w.

(** The entry [format_record] makes for one operand. *)
Definition entry_of (cwd directory : pystr) (command : list pystr)
    (operand : pystr) : gmap string pyval :=
  cdb_entry directory (join_command command) (PosixPath.abspath cwd operand).

(** What an entry made by [format_record] looks like: exactly the keys
    ['directory'], ['command'] and ['file'], the last two being strings. *)
Definition formatted_entry (cwd : pystr) (records : list (gmap string pyval))
    (e : gmap string pyval) : Prop :=
  exists record command directory operand,
    In record records /\
    record !! "command" = Some (PList command) /\
    record !! "directory" = Some directory /\
    e = <["directory" := directory]>
          (<["command" := PStr (join_command command)]>
            (<["file" := PStr (PosixPath.abspath cwd operand)]> ∅)).

(** ** The environment of the build ([run_build], lines 128 to 135)

    [ENVIRONMENTS] is chosen by [sys.platform]; [resource_filename] is
    [pkg_resources.resource_filename]. *)
Definition ENVIRONMENTS (darwin : bool) : list (string * string) :=
  if darwin then
    [("ENV_OUTPUT", "BEAR_OUTPUT");
     ("ENV_PRELOAD", "DYLD_INSERT_LIBRARIES");
     ("ENV_FLAT", "DYLD_FORCE_FLAT_NAMESPACE")]
  else
    [("ENV_OUTPUT", "BEAR_OUTPUT");
     ("ENV_PRELOAD", "LD_PRELOAD")].

Definition get_ear_so_file (resource_filename : string -> string -> pystr)
    (darwin : bool) : pystr :=
  let lib_name := if darwin then "libear.dylib" else "libear.so" in
  resource_filename "analyzer" lib_name.

(** The dictionary [run_build] passes as [env]. *)
Definition build_environment (resource_filename : string -> string -> pystr)
    (darwin : bool) (environ : gmap string pystr) (destination : pystr)
  : gmap string pystr :=
  fold_left (fun environment '(alias, key) =>
    let value :=
      if bool_decide (alias = "ENV_PRELOAD")
      then get_ear_so_file resource_filename darwin
      else if bool_decide (alias = "ENV_OUTPUT") then destination
      else str "1" in
    <[key := value]> environment) (ENVIRONMENTS darwin) environ.


(** ** More of the example build *)

Definition example_record_clang : gmap string pyval :=
  process_record (str "4714") (str "4710") (str "execve") (str "/src")
    [str "clang"; str "-c"; str "a.c"; str "-o"; str "a.o"].

(** A command with an open double quote. *)
Definition example_entry_open_quote : gmap string pyval :=
  cdb_entry (str "/src") (str "cc -DX=" ++ [ascii_of_nat 34] ++ str "a -c a.c")
    (str "/src/a.c").

(** The example with other trace files: [listing] is what the directory
    holds, [cmd.extra] has a sixth field, [cmd.empty] has no token. *)
Definition example_fs_listing (listing : list string) : filesystem := {|
  fs_read := fun name =>
    if bool_decide (name = str "/tmp/bear-x/cmd.4711") then Some example_trace_cc
    else if bool_decide (name = str "/tmp/bear-x/cmd.extra")
    then Some (example_trace_cc ++ RS :: str "more")
    else if bool_decide (name = str "/tmp/bear-x/cmd.empty")
    then Some (field "4715" ++ field "4710" ++ field "execve" ++ field "/src")
    else if bool_decide (name = str "/tmp/bear-x/cmd.short")
    then Some (field "1" ++ field "0")
    else None;
  fs_exists := fun name => bool_decide (name = str "/src/a.c");
  fs_glob := fun pattern =>
    if bool_decide (pattern = str "/tmp/bear-x/cmd.*") then map str listing else [];
  fs_json := fun _ => Ok [];
  fs_writable := fun _ => true;
  fs_cwd := str "/src"
|}.



Definition example_environ : gmap string pystr :=
  <["LD_PRELOAD" := str "libfakeroot.so"]> (<["PATH" := str "/usr/bin"]> ∅).

Definition example_resource (package name : string) : pystr :=
  str "/usr/lib/python/" ++ str package ++ str "/" ++ str name.

(** ** A build that compiles in a sub-directory

    [make -C sub]: the compiler ran in [/src/sub], the collecting process
    runs in [/src]; [/src/sub/a.c] exists and [/src/a.c] does not. *)
Definition example_trace_sub : pystr :=
  field "4721" ++ field "4720" ++ field "execve" ++ field "/src/sub" ++
  token "cc" ++ token "-c" ++ token "a.c" ++ token "-o" ++ token "a.o".

Definition example_record_sub : gmap string pyval :=
  process_record (str "4721") (str "4720") (str "execve") (str "/src/sub")
    [str "cc"; str "-c"; str "a.c"; str "-o"; str "a.o"].

Definition example_fs_sub : filesystem := {|
  fs_read := fun name =>
    if bool_decide (name = str "/tmp/bear-x/cmd.4721") then Some example_trace_sub
    else None;
  fs_exists := fun name => bool_decide (name = str "/src/sub/a.c");
  fs_glob := fun pattern =>
    if bool_decide (pattern = str "/tmp/bear-x/cmd.*")
    then [str "/tmp/bear-x/cmd.4721"] else [];
  fs_json := fun _ => Ok [];
  fs_writable := fun _ => true;
  fs_cwd := str "/src"
|}.

Definition example_build_sub (command : list pystr) (destination : pystr)
  : result (Z * filesystem) :=
  Ok (0%Z, example_fs_sub).

(** * Facts *)

(** ** The result monad *)

Lemma bind_Ok {A B} (f : A -> result B) (a : A) : (Ok a ≫= f) = f a.
Proof. reflexivity. Qed.

Lemma bind_Ok_inv {A B} (f : A -> result B) (m : result A) (b : B) :
  (m ≫= f) = Ok b -> exists a, m = Ok a /\ f a = Ok b.
Proof. destruct m as [a|e]; [eauto | discriminate]. Qed.

Lemma ascii_eqb_true a b : ascii_eqb a b = true <-> a = b.
Proof. unfold ascii_eqb. apply bool_decide_eq_true. Qed.

Lemma ascii_eqb_false a b : ascii_eqb a b = false <-> a <> b.
Proof. unfold ascii_eqb. apply bool_decide_eq_false. Qed.

Lemma ascii_eqb_refl a : ascii_eqb a a = true.
Proof. by apply ascii_eqb_true. Qed.

Lemma mem_app c s1 s2 : mem c (s1 ++ s2) = mem c s1 || mem c s2.
Proof. unfold mem. apply existsb_app. Qed.

(** ** [str.split] and [str.join] *)

Lemma str_split_nonnil sep s : str_split sep s <> [].
Proof.
  destruct s as [|c s]; simpl; [discriminate|].
  destruct (ascii_eqb c sep); [discriminate|].
  destruct (str_split sep s); discriminate.
Qed.

Lemma str_split_no_sep sep s : mem sep s = false -> str_split sep s = [s].
Proof.
  induction s as [|c s IH]; simpl; [reflexivity|].
  intros H. apply orb_false_iff in H as [Hc Hs].
  assert (ascii_eqb c sep = false) as ->.
  { apply ascii_eqb_false. apply ascii_eqb_false in Hc. congruence. }
  by rewrite IH.
Qed.

Lemma str_split_app sep a b :
  mem sep a = false -> str_split sep (a ++ sep :: b) = a :: str_split sep b.
Proof.
  induction a as [|c a IH]; simpl.
  - intros _. by rewrite ascii_eqb_refl.
  - intros H. apply orb_false_iff in H as [Hc Hs].
    assert (ascii_eqb c sep = false) as ->.
    { apply ascii_eqb_false. apply ascii_eqb_false in Hc. congruence. }
    by rewrite IH.
Qed.

(** The number of fields is one more than the number of separators. *)
Lemma length_str_split sep s :
  length (str_split sep s) = S (length (filter (fun c => c = sep) s)).
Proof.
  induction s as [|c s IH]; simpl; [reflexivity|].
  unfold ascii_eqb, filter. simpl. case_bool_decide as Hc.
  - rewrite decide_True by done. simpl. f_equal. apply IH.
  - rewrite decide_False by done.
    destruct (str_split sep s) eqn:E; [by apply str_split_nonnil in E|].
    exact IH.
Qed.

Lemma str_split_tokens sep (tokens : list pystr) z :
  forallb (fun t => negb (mem sep t)) tokens = true ->
  mem sep z = false ->
  str_split sep (concat (map (fun t => t ++ [sep]) tokens) ++ z) = tokens ++ [z].
Proof.
  intros Ht Hz. induction tokens as [|t tokens IH]; simpl.
  - by apply str_split_no_sep.
  - simpl in Ht. apply andb_true_iff in Ht as [Ht1 Ht2].
    rewrite <- !app_assoc. simpl. rewrite str_split_app.
    + by rewrite IH.
    + by apply negb_true_iff.
Qed.

Lemma removelast_snoc {A} (l : list A) x : removelast (l ++ [x]) = l.
Proof. apply removelast_last. Qed.

(** ** [parse] *)

(** C8. [parse] splits the content of a trace file on 0x1E into pid,
    parent pid, function, directory and command, in this order, and splits
    the command on 0x1F, dropping what follows the last 0x1F (the empty
    string, when the field ends with the separator).  A file that cannot be
    opened raises, and so does a content with fewer than five fields. *)
Theorem parse_trace_file (fs : filesystem) (filename : pystr) :
  (fs_read fs filename = None ->
   parse fs filename = Raise (IOError filename)) /\
  (forall content,
     fs_read fs filename = Some content ->
     length (str_split RS content) < 5 ->
     parse fs filename = Raise IndexError) /\
  (forall pid ppid function directory tokens z,
     forallb (fun t => negb (mem RS t)) (pid :: ppid :: function :: directory :: z :: tokens) = true ->
     forallb (fun t => negb (mem US t)) (z :: tokens) = true ->
     fs_read fs filename = Some (trace_content pid ppid function directory tokens z) ->
     parse fs filename = Ok (process_record pid ppid function directory tokens)).
Proof.
  split; [|split].
  - intros H. unfold parse. by rewrite H.
  - intros content H Hlen. unfold parse. rewrite H. simpl.
    destruct (str_split RS content) as [|r0 [|r1 [|r2 [|r3 [|r4 rs]]]]];
      simpl in *; try reflexivity; lia.
  - intros pid ppid function directory tokens z Hrs Hus H.
    unfold parse. rewrite H. unfold trace_content.
    simpl in Hrs, Hus.
    repeat (apply andb_true_iff in Hrs as [?%negb_true_iff Hrs]).
    apply andb_true_iff in Hus as [Hz%negb_true_iff Hus].
    rewrite !str_split_app by done.
    assert (mem RS (concat (map (fun t => t ++ [US]) tokens) ++ z) = false) as Hcmd.
    { rewrite mem_app. apply orb_false_iff. split; [|done].
      clear -Hrs. induction tokens as [|t tokens IH]; [done|].
      simpl in *. apply andb_true_iff in Hrs as [Ht%negb_true_iff Hrs].
      rewrite !mem_app, Ht, IH by done. reflexivity. }
    rewrite (str_split_no_sep _ _ Hcmd). simpl.
    rewrite str_split_tokens by done.
    by rewrite removelast_snoc.
Qed.

(** ** [merge]: the state-independent part of [duplicate] *)

Lemma duplicate_entry_key fs state entry :
  duplicate fs state entry =
  (k ← entry_key fs entry;
   match k with
   | Some h =>
       if bool_decide (h ∈ state) then Ok (state, true)
       else Ok ({[h]} ∪ state, false)
   | None => Ok (state, true)
   end).
Proof.
  unfold duplicate, entry_key.
  destruct (getitem entry "file" ≫= as_str) as [file|e]; simpl; [|reflexivity].
  destruct (fs_exists fs file); [|reflexivity].
  destruct (hash_cdb entry); reflexivity.
Qed.

Lemma traverse_ok {A B} (f : A -> result B) l :
  forallb (fun x => is_ok (f x)) l = true -> exists ys, traverse f l = Ok ys.
Proof.
  induction l as [|x l IH]; simpl; [eauto|].
  intros [Hx Hl]%andb_true_iff. destruct (f x); [|discriminate].
  destruct (IH Hl) as [ys ->]. simpl. eauto.
Qed.

Lemma traverse_ok_inv {A B} (f : A -> result B) l ys :
  traverse f l = Ok ys -> forallb (fun x => is_ok (f x)) l = true.
Proof.
  revert ys. induction l as [|x l IH]; simpl; [done|].
  intros ys H. destruct (f x); [|discriminate]. simpl in *.
  destruct (traverse f l); [|discriminate]. eauto.
Qed.

Lemma merge_from_select fs state l :
  merge_from fs state l =
  (_ ← traverse (entry_key fs) l; Ok (select (key_of fs) state l)).
Proof.
  revert state. induction l as [|e l IH]; intros state; simpl; [reflexivity|].
  rewrite duplicate_entry_key. unfold key_of.
  destruct (entry_key fs e) as [[h|]|err]; simpl; [| |reflexivity].
  - case_bool_decide; simpl; rewrite IH;
      destruct (traverse (entry_key fs) l); reflexivity.
  - rewrite IH. destruct (traverse (entry_key fs) l); reflexivity.
Qed.

Lemma merge_from_ok fs state l :
  forallb (entry_ok fs) l = true ->
  merge_from fs state l = Ok (select (key_of fs) state l).
Proof.
  intros H. rewrite merge_from_select.
  destruct (traverse_ok (entry_key fs) l H) as [ys ->]. reflexivity.
Qed.

Lemma merge_from_ok_inv fs state l out :
  merge_from fs state l = Ok out ->
  forallb (entry_ok fs) l = true /\ out = select (key_of fs) state l.
Proof.
  rewrite merge_from_select. intros H.
  destruct (traverse (entry_key fs) l) as [ys|] eqn:E; [|discriminate].
  simpl in H. split; [|congruence]. by eapply traverse_ok_inv.
Qed.

(** ** The comprehension over known keys *)

Section Select.
Context {E : Type} (key : E -> option pystr).

Lemma seen_cons_Some state e l h :
  key e = Some h -> seen key state (e :: l) = seen key ({[h]} ∪ state) l.
Proof. unfold seen. simpl. intros ->. set_solver. Qed.

Lemma seen_cons_None state e l :
  key e = None -> seen key state (e :: l) = seen key state l.
Proof. unfold seen. simpl. by intros ->. Qed.

Lemma select_app state l1 l2 :
  select key state (l1 ++ l2) =
  select key state l1 ++ select key (seen key state l1) l2.
Proof.
  revert state. induction l1 as [|e l1 IH]; intros state; simpl.
  - unfold seen. simpl. f_equal. set_solver.
  - destruct (key e) as [h|] eqn:Hk.
    + rewrite (seen_cons_Some _ _ _ _ Hk). case_bool_decide.
      * rewrite IH. do 2 f_equal. f_equal. set_solver.
      * simpl. by rewrite IH.
    + by rewrite (seen_cons_None _ _ _ Hk).
Qed.

Lemma select_elem state l e :
  In e (select key state l) ->
  In e l /\ exists h, key e = Some h /\ h ∉ state.
Proof.
  revert state. induction l as [|x l IH]; intros state; simpl; [done|].
  destruct (key x) as [h|] eqn:Hk.
  - case_bool_decide as Hin.
    + intros H. destruct (IH _ H) as [? ?]. eauto.
    + intros [<-|H]; [eauto|].
      destruct (IH _ H) as [? (h' & ? & ?)]. split; [eauto|].
      exists h'. split; [done|]. set_solver.
  - intros H. destruct (IH _ H) as [? ?]. eauto.
Qed.

Lemma select_keys_fresh state l h :
  h ∈ omap key (select key state l) -> h ∉ state /\ h ∈ omap key l.
Proof.
  revert state. induction l as [|x l IH]; intros state; simpl; [set_solver|].
  destruct (key x) as [hx|] eqn:Hk.
  - case_bool_decide as Hin.
    + intros H. destruct (IH _ H). set_solver.
    + simpl. rewrite Hk. intros [->|H]%elem_of_cons; [set_solver|].
      destruct (IH _ H). set_solver.
  - intros H. by destruct (IH _ H).
Qed.

Lemma select_keys_NoDup state l : NoDup (omap key (select key state l)).
Proof.
  revert state. induction l as [|x l IH]; intros state; simpl; [constructor|].
  destruct (key x) as [hx|] eqn:Hk; [|done].
  case_bool_decide as Hin; [done|]. simpl. rewrite Hk.
  constructor; [|done]. intros H%select_keys_fresh. set_solver.
Qed.

Lemma select_keys state l h :
  h ∈ omap key (select key state l) <-> h ∉ state /\ h ∈ omap key l.
Proof.
  split; [apply select_keys_fresh|].
  revert state. induction l as [|x l IH]; intros state; simpl; [set_solver|].
  destruct (key x) as [hx|] eqn:Hk.
  - intros [Hs [->|Hl]%elem_of_cons].
    + rewrite bool_decide_eq_false_2 by done. simpl. rewrite Hk. set_solver.
    + case_bool_decide as Hin; [by apply IH|]. simpl. rewrite Hk.
      destruct (decide (h = hx)) as [->|Hne]; [set_solver|].
      apply elem_of_cons. right. apply IH. set_solver.
  - intros [Hs Hl]. by apply IH.
Qed.

Lemma seen_select state l : seen key state (select key state l) = seen key state l.
Proof.
  unfold seen. apply set_eq. intros h. rewrite !elem_of_union, !elem_of_list_to_set.
  rewrite select_keys. destruct (decide (h ∈ state)); tauto.
Qed.

(** A list of entries with pairwise distinct, unseen keys is kept whole. *)
Lemma select_all state l :
  Forall (fun e => is_Some (key e)) l ->
  NoDup (omap key l) ->
  (forall h, h ∈ omap key l -> h ∉ state) ->
  select key state l = l.
Proof.
  revert state. induction l as [|x l IH]; intros state Hs Hnd Hfresh; simpl; [done|].
  inversion Hs as [|? ? [hx Hk] Hs']; subst. simpl in Hnd, Hfresh. rewrite Hk in *.
  inversion Hnd; subst.
  rewrite bool_decide_eq_false_2 by (apply Hfresh; set_solver).
  f_equal. apply IH; [done..|]. intros h Hh. specialize (Hfresh h). set_solver.
Qed.

(** Entries whose keys have all been seen are all dropped. *)
Lemma select_none state l :
  (forall h, h ∈ omap key l -> h ∈ state) -> select key state l = [].
Proof.
  revert state. induction l as [|x l IH]; intros state Hin; simpl; [done|].
  destruct (key x) as [hx|] eqn:Hk.
  - rewrite bool_decide_eq_true_2 by (apply Hin; simpl; rewrite Hk; set_solver).
    apply IH. intros h Hh. apply Hin. simpl. rewrite Hk. set_solver.
  - apply IH. intros h Hh. apply Hin. simpl. by rewrite Hk.
Qed.

Lemma select_first_seen state earlier l :
  (forall h, h ∈ state <-> Some h ∈ map key earlier) ->
  select key state l = first_seen key earlier l.
Proof.
  revert state earlier. induction l as [|x l IH]; intros state earlier Hinv; simpl; [done|].
  assert (forall h, key x = Some h ->
            forall h', h' ∈ {[h]} ∪ state <-> Some h' ∈ map key (earlier ++ [x])) as Hstep.
  { intros h Hk h'. rewrite map_app. simpl. rewrite Hk.
    rewrite elem_of_app, elem_of_union, Hinv. set_solver. }
  destruct (key x) as [hx|] eqn:Hk.
  - case_bool_decide as Hin.
    + rewrite bool_decide_eq_true_2 by (by apply Hinv).
      apply IH. intros h. rewrite map_app, elem_of_app, Hinv. simpl. rewrite Hk.
      split; [tauto|]. intros [?|Hx]; [done|]. apply Hinv.
      apply list_elem_of_singleton in Hx. by simplify_eq.
    + rewrite bool_decide_eq_false_2 by (by rewrite <- Hinv).
      f_equal. apply IH. by apply Hstep.
  - apply IH. intros h. rewrite map_app, elem_of_app, Hinv. simpl. rewrite Hk.
    split; [tauto|]. intros [?|Hx]; [done|].
    apply list_elem_of_singleton in Hx. discriminate.
Qed.

Lemma select_sublist state l : sublist (select key state l) l.
Proof.
  revert state. induction l as [|x l IH]; intros state; simpl; [constructor|].
  destruct (key x); [case_bool_decide|]; by constructor.
Qed.

End Select.

(** ** What [entry_key] and [hash_cdb] compute *)

Lemma entry_key_missing fs e f :
  e !! "file" = Some (PStr f) -> fs_exists fs f = false ->
  entry_key fs e = Ok None.
Proof. intros He Hf. unfold entry_key, getitem. rewrite He. simpl. by rewrite Hf. Qed.

Lemma entry_key_Some fs e h :
  entry_key fs e = Ok (Some h) ->
  exists f, e !! "file" = Some (PStr f) /\ fs_exists fs f = true /\ hash_cdb e = Ok h.
Proof.
  unfold entry_key, getitem. destruct (e !! "file") as [[f|]|]; simpl; try discriminate.
  destruct (fs_exists fs f) eqn:Hf; [|discriminate].
  destruct (hash_cdb e) as [h'|]; simpl; [|discriminate].
  intros [= ->]. eauto.
Qed.

Lemma key_of_Some fs e h :
  key_of fs e = Some h <->
  exists f, e !! "file" = Some (PStr f) /\ fs_exists fs f = true /\ hash_cdb e = Ok h.
Proof.
  unfold key_of. split.
  - destruct (entry_key fs e) as [k|] eqn:E; [|discriminate].
    intros ->. by apply entry_key_Some.
  - intros (f & He & Hf & Hh). unfold entry_key, getitem.
    rewrite He. simpl. rewrite Hf, Hh. reflexivity.
Qed.

Lemma hash_cdb_fields e f d c tokens :
  e !! "file" = Some (PStr f) ->
  e !! "directory" = Some (PStr d) ->
  e !! "command" = Some (PStr c) ->
  Shlex.split c = Ok tokens ->
  hash_cdb e =
  Ok (rev f ++ str "<>" ++ rev d ++ str "<>" ++ str_join (str " ") (tail tokens)).
Proof.
  intros Hf Hd Hc Ht. unfold hash_cdb, getitem. rewrite Hc. simpl.
  rewrite Ht. simpl. rewrite Hf. simpl. rewrite Hd. reflexivity.
Qed.

Lemma filter_key_length {E} (key : E -> option pystr) (k : pystr) (l : list E) :
  NoDup (omap key l) -> k ∈ omap key l ->
  length (filter (fun e => key e = Some k) l) = 1.
Proof.
  induction l as [|x l IH]; simpl; [set_solver|].
  intros Hnd Hin. rewrite filter_cons.
  destruct (key x) as [hx|] eqn:Hk.
  - inversion Hnd as [|? ? Hnot Hnd']; subst.
    destruct (decide (Some hx = Some k)) as [[= ->]|Hne].
    + simpl. f_equal. clear -Hnot. induction l as [|y l IH]; [done|].
      rewrite filter_cons. simpl in Hnot. destruct (key y) as [hy|] eqn:Hy.
      * rewrite decide_False by set_solver. apply IH. set_solver.
      * rewrite decide_False by done. by apply IH.
    + apply IH; [done|]. set_solver.
  - rewrite decide_False by done. by apply IH.
Qed.

Lemma filter_agree {A} (P Q : A -> Prop) `{!forall x, Decision (P x)}
    `{!forall x, Decision (Q x)} (l : list A) :
  Forall (fun x => P x <-> Q x) l -> filter P l = filter Q l.
Proof.
  induction 1 as [|x l Hx Hl IH]; [done|].
  rewrite !filter_cons. destruct (decide (P x)), (decide (Q x)); try tauto; by f_equal.
Qed.

Lemma forallb_In {A} (p : A -> bool) l x :
  forallb p l = true -> In x l -> p x = true.
Proof. intros H Hx. eapply forallb_forall in H; eauto. Qed.

Lemma entry_ok_key_of fs e :
  entry_ok fs e = true -> entry_key fs e = Ok (key_of fs e).
Proof. unfold entry_ok, key_of. by destruct (entry_key fs e). Qed.

(** ** The claims about [merge] *)

(** C2. Every entry [merge] returns names a file that exists; an entry whose
    file does not exist is dropped whatever the state is, the state is left
    as it was, and the pass runs as if the entry were not in the input. *)
Theorem merge_existence_filter (fs : filesystem) :
  (forall old new out,
     merge fs old new = Ok out ->
     Forall (fun e => exists f, e !! "file" = Some (PStr f) /\ fs_exists fs f = true) out) /\
  (forall state e f,
     e !! "file" = Some (PStr f) -> fs_exists fs f = false ->
     duplicate fs state e = Ok (state, true)) /\
  (forall state l1 l2 e f,
     e !! "file" = Some (PStr f) -> fs_exists fs f = false ->
     merge_from fs state (l1 ++ e :: l2) = merge_from fs state (l1 ++ l2)) /\
  (forall old new,
     forallb (entry_ok fs) (old ++ new) = true ->
     exists out, merge fs old new = Ok out).
Proof.
  assert (forall state e f,
     e !! "file" = Some (PStr f) -> fs_exists fs f = false ->
     duplicate fs state e = Ok (state, true)) as Hdup.
  { intros state e f He Hf. rewrite duplicate_entry_key.
    by rewrite (entry_key_missing _ _ _ He Hf). }
  repeat split.
  - intros old new out [_ ->]%merge_from_ok_inv.
    apply Forall_forall. intros e He%list_elem_of_In.
    apply select_elem in He as [_ (h & Hk & _)].
    apply key_of_Some in Hk as (f & ? & ? & ?). eauto.
  - exact Hdup.
  - intros state l1 l2 e f He Hf. revert state.
    induction l1 as [|x l1 IH]; intros state; simpl.
    + rewrite (Hdup _ _ _ He Hf). simpl. by destruct (merge_from fs state l2).
    + destruct (duplicate fs state x) as [[state' dup]|]; simpl; [|done].
      by rewrite IH.
  - intros old new H. unfold merge. rewrite merge_from_ok by done. eauto.
Qed.

Lemma merge_split fs old new :
  forallb (entry_ok fs) (old ++ new) = true ->
  merge fs old [] = Ok (select (key_of fs) ∅ old) /\
  merge fs old new =
  Ok (select (key_of fs) ∅ old ++ select (key_of fs) (seen (key_of fs) ∅ old) new).
Proof.
  intros H. unfold merge. rewrite app_nil_r.
  rewrite forallb_app in H. apply andb_true_iff in H as [Ho Hn].
  rewrite !merge_from_ok by (rewrite ?forallb_app, ?Ho, ?Hn; done).
  by rewrite select_app.
Qed.

(** C3. [merge] runs over [old ++ new] in this order and keeps an entry
    exactly when its file exists and no entry before it has the same key.
    So the first entry of [old] with a given key is kept and no entry of
    [new] with that key is; and when the database holds one entry and the
    new trace compiles the same file with another first word, the result is
    the database as it was. *)
Theorem merge_first_seen_wins (fs : filesystem) (old new : list (gmap string pyval)) :
  forallb (entry_ok fs) (old ++ new) = true ->
  merge fs old new = Ok (first_seen (key_of fs) [] (old ++ new)) /\
  (forall l1 l2 e k,
     old = l1 ++ e :: l2 -> key_of fs e = Some k ->
     Forall (fun x => key_of fs x <> Some k) l1 ->
     exists kept_old kept_new,
       merge fs old new = Ok (kept_old ++ kept_new) /\
       merge fs old [] = Ok kept_old /\
       In e kept_old /\
       sublist kept_new new /\
       Forall (fun e' => key_of fs e' <> Some k) kept_new) /\
  (forall d f c1 c2 t1 t2 rest,
     old = [cdb_entry d c1 f] -> new = [cdb_entry d c2 f] ->
     Shlex.split c1 = Ok (t1 :: rest) -> Shlex.split c2 = Ok (t2 :: rest) ->
     fs_exists fs f = true ->
     merge fs old new = Ok old).
Proof.
  intros Hok. split; [|split].
  - unfold merge. rewrite merge_from_ok by done. f_equal.
    apply select_first_seen. set_solver.
  - intros l1 l2 e k -> Hk Hl1.
    destruct (merge_split fs _ _ Hok) as [Hold Hboth].
    eexists _, _. split; [exact Hboth|]. split; [exact Hold|].
    split; [|split].
    + rewrite select_app. apply in_or_app. right. simpl. rewrite Hk.
      rewrite bool_decide_eq_false_2; [by left|].
      unfold seen. rewrite elem_of_union, elem_of_list_to_set.
      intros [Hin|Hin]; [|set_solver].
      apply list_elem_of_omap in Hin as (x & Hx & Hkx).
      rewrite Forall_forall in Hl1. by apply (Hl1 x).
    + apply select_sublist.
    + apply Forall_forall. intros e' He'%list_elem_of_In.
      apply select_elem in He' as [_ (h & Hh & Hfresh)].
      rewrite Hh. intros [= ->]. apply Hfresh.
      unfold seen. rewrite elem_of_union, elem_of_list_to_set. left.
      apply list_elem_of_omap. exists e. split; [|done].
      apply list_elem_of_In, in_or_app. right. by left.
  - intros d f c1 c2 t1 t2 rest -> -> H1 H2 Hf.
    assert (forall c t, Shlex.split c = Ok (t :: rest) ->
              key_of fs (cdb_entry d c f) =
              Some (rev f ++ str "<>" ++ rev d ++ str "<>" ++ str_join (str " ") rest))
      as Hkey.
    { intros c t Hc. apply key_of_Some. exists f. split; [done|]. split; [done|].
      by rewrite (hash_cdb_fields _ f d c (t :: rest)). }
    unfold merge. rewrite merge_from_ok by done. simpl.
    rewrite (Hkey _ _ H1), (Hkey _ _ H2).
    rewrite bool_decide_eq_false_2 by set_solver.
    rewrite bool_decide_eq_true_2 by set_solver. reflexivity.
Qed.

(** C4. Merging the same collected entries into the result of a merge gives
    that result again, the files being the same in both passes; a first
    pass that raises leaves nothing to merge into. *)
Theorem merge_idempotent (fs : filesystem) (D C : list (gmap string pyval)) :
  (merge fs D C ≫= fun M => merge fs M C) = merge fs D C.
Proof.
  destruct (merge fs D C) as [M|err] eqn:HM; [|reflexivity].
  simpl. unfold merge in *.
  apply merge_from_ok_inv in HM as [Hok ->].
  set (key := key_of fs). set (M := select key ∅ (D ++ C)).
  assert (forallb (entry_ok fs) (M ++ C) = true) as Hok'.
  { apply forallb_forall. intros e [He|He]%in_app_or.
    - apply select_elem in He as [He _]. by eapply forallb_In.
    - eapply forallb_In; [exact Hok|]. apply in_or_app. by right. }
  rewrite merge_from_ok by done. fold key. f_equal.
  rewrite select_app.
  assert (select key ∅ M = M) as ->.
  { apply select_all.
    - apply Forall_forall. intros e He%list_elem_of_In.
      apply select_elem in He as [_ (h & -> & _)]. eauto.
    - apply select_keys_NoDup.
    - set_solver. }
  rewrite select_none; [by rewrite app_nil_r|].
  intros h Hh. unfold M. rewrite seen_select.
  unfold seen. rewrite elem_of_union, elem_of_list_to_set. left.
  rewrite omap_app. set_solver.
Qed.

(** C7. The key of an entry is its file reversed, its directory reversed and
    its command without the first token, joined by [<>].  Two entries with
    the same file, the same directory and the same tokens after the first
    have the same key, and when the file exists [merge] returns exactly one
    entry with that key. *)
Theorem hash_cdb_alias_collapse (fs : filesystem) (e1 e2 : gmap string pyval)
    (f d c1 c2 t1 t2 : pystr) (rest : list pystr) :
  e1 !! "file" = Some (PStr f) -> e2 !! "file" = Some (PStr f) ->
  e1 !! "directory" = Some (PStr d) -> e2 !! "directory" = Some (PStr d) ->
  e1 !! "command" = Some (PStr c1) -> e2 !! "command" = Some (PStr c2) ->
  Shlex.split c1 = Ok (t1 :: rest) -> Shlex.split c2 = Ok (t2 :: rest) ->
  let k := rev f ++ str "<>" ++ rev d ++ str "<>" ++ str_join (str " ") rest in
  hash_cdb e1 = Ok k /\ hash_cdb e2 = Ok k /\
  (fs_exists fs f = true ->
   forall old new,
     forallb (entry_ok fs) (old ++ new) = true ->
     In e1 (old ++ new) -> In e2 (old ++ new) ->
     exists out,
       merge fs old new = Ok out /\
       length (filter (fun e => hash_cdb e = Ok k) out) = 1).
Proof.
  intros Hf1 Hf2 Hd1 Hd2 Hc1 Hc2 Ht1 Ht2 k.
  assert (hash_cdb e1 = Ok k) as Hk1 by by rewrite (hash_cdb_fields e1 f d c1 (t1 :: rest)).
  assert (hash_cdb e2 = Ok k) as Hk2 by by rewrite (hash_cdb_fields e2 f d c2 (t2 :: rest)).
  split; [done|]. split; [done|].
  intros Hf old new Hok Hin1 _.
  unfold merge. rewrite merge_from_ok by done. eexists. split; [reflexivity|].
  set (out := select (key_of fs) ∅ (old ++ new)).
  rewrite (filter_agree _ (fun e => key_of fs e = Some k)).
  - apply filter_key_length; [apply select_keys_NoDup|].
    apply select_keys. split; [set_solver|].
    apply list_elem_of_omap. exists e1. split; [by apply list_elem_of_In|].
    apply key_of_Some. eauto.
  - apply Forall_forall. intros e He%list_elem_of_In.
    apply select_elem in He as [_ (h & Hh & _)]. rewrite Hh.
    apply key_of_Some in Hh as (? & ? & ? & ->). split; congruence.
Qed.

(** ** The filter *)

#[local] Arguments cancel_parameter : simpl never.

Lemma chain_skip cmdparse fs record rest :
  general_filter record = Ok false ->
  chain cmdparse fs (record :: rest) = chain cmdparse fs rest.
Proof.
  intros H. simpl. rewrite H. simpl. by destruct (chain cmdparse fs rest).
Qed.

(** C5. A record whose executable is a known compiler is nevertheless not
    yielded by the filter when one of the arguments after the executable is
    [-cc1]; the executable itself is not looked at by [cancel_parameter]. *)
Theorem cc1_excluded (cmdparse : list pystr -> result atoms) (fs : filesystem)
    (record : gmap string pyval) (executable : pystr) (args : list pystr)
    (rest : list (gmap string pyval)) :
  record !! "command" = Some (PList (executable :: args)) ->
  known_compiler (executable :: args) = Ok true ->
  In (str "-cc1") args ->
  cancel_parameter (executable :: args) = true /\
  cancel_parameter [executable] = false /\
  general_filter record = Ok false /\
  chain cmdparse fs (record :: rest) = chain cmdparse fs rest.
Proof.
  intros Hc Hk Hin.
  assert (cancel_parameter (executable :: args) = true) as Hcancel.
  { unfold cancel_parameter. simpl. rewrite orb_false_r.
    apply existsb_exists. exists (str "-cc1"). split; [done|]. reflexivity. }
  assert (general_filter record = Ok false) as Hfilter.
  { unfold general_filter, getitem. rewrite Hc. simpl.
    rewrite Hcancel. simpl. by rewrite andb_false_r. }
  split; [done|]. split; [reflexivity|]. split; [done|].
  by apply chain_skip.
Qed.

(** ** The unfiltered pipeline *)

Lemma parse_process_record fs filename r :
  parse fs filename = Ok r ->
  exists pid ppid function directory command,
    r = process_record pid ppid function directory command.
Proof.
  unfold parse. destruct (fs_read fs filename) as [content|]; [|discriminate].
  simpl.
  destruct (getidx (str_split RS content) 0) as [pid|]; [|discriminate]. simpl.
  destruct (getidx (str_split RS content) 1) as [ppid|]; [|discriminate]. simpl.
  destruct (getidx (str_split RS content) 2) as [function|]; [|discriminate]. simpl.
  destruct (getidx (str_split RS content) 3) as [directory|]; [|discriminate]. simpl.
  destruct (getidx (str_split RS content) 4) as [command|]; [|discriminate]. simpl.
  intros [= <-]. by eexists _, _, _, _, _.
Qed.

Lemma traverse_Forall {A B} (f : A -> result B) (P : B -> Prop) l ys :
  (forall x y, f x = Ok y -> P y) -> traverse f l = Ok ys -> Forall P ys.
Proof.
  intros Hf. revert ys. induction l as [|x l IH]; simpl; intros ys.
  - intros [= <-]. constructor.
  - destruct (f x) as [y|] eqn:Hx; [|discriminate]. simpl.
    destruct (traverse f l) as [ys'|]; [|discriminate]. simpl.
    intros [= <-]. constructor; eauto.
Qed.

Lemma traverse_length {A B} (f : A -> result B) l ys :
  traverse f l = Ok ys -> length ys = length l.
Proof.
  revert ys. induction l as [|x l IH]; simpl; intros ys.
  - by intros [= <-].
  - destruct (f x); [|discriminate]. simpl.
    destruct (traverse f l) as [ys'|]; [|discriminate]. simpl.
    intros [= <-]. simpl. f_equal. by apply IH.
Qed.

Lemma process_record_no_file pid ppid function directory command :
  process_record pid ppid function directory command !! "file" = None.
Proof. reflexivity. Qed.

Lemma duplicate_process_record fs state pid ppid function directory command :
  duplicate fs state (process_record pid ppid function directory command)
  = Raise (KeyError "file").
Proof. reflexivity. Qed.

Lemma collect_unfiltered cmdparse fs destination recs :
  collect cmdparse fs false destination = Ok recs ->
  Forall (fun r => exists pid ppid function directory command,
            r = process_record pid ppid function directory command) recs /\
  length recs = length (fs_glob fs (PosixPath.join destination (str "cmd.*"))).
Proof.
  unfold collect.
  destruct (traverse (parse fs) _) as [generator|] eqn:E; [|discriminate].
  simpl. intros [= <-]. split.
  - eapply traverse_Forall; [|exact E]. apply parse_process_record.
  - by eapply traverse_length.
Qed.

(** C10. With the filter disabled [collect] returns the process records as
    [parse] made them; they have no ['file'], so [duplicate] raises
    [KeyError] on each of them, and [merge], hence [main], completes only
    when no trace file was found. *)
Theorem unfiltered_pipeline_raises (cmdparse : list pystr -> result atoms)
    (subprocess_call : list pystr -> pystr -> result (Z * filesystem))
    (tmpdir : pystr) (fs : filesystem) (recs : list (gmap string pyval)) :
  collect cmdparse fs false tmpdir = Ok recs ->
  Forall (fun r => r !! "file" = None /\
                   is_Some (r !! "pid") /\ is_Some (r !! "ppid") /\
                   is_Some (r !! "function") /\ is_Some (r !! "directory") /\
                   is_Some (r !! "command")) recs /\
  (forall state r, In r recs -> duplicate fs state r = Raise (KeyError "file")) /\
  (forall old out,
     merge fs old recs = Ok out ->
     recs = [] /\ fs_glob fs (PosixPath.join tmpdir (str "cmd.*")) = []) /\
  (recs <> [] -> merge fs [] recs = Raise (KeyError "file")) /\
  (forall args code out,
     filtering args = Some true ->
     subprocess_call (build args) tmpdir = Ok (code, fs) ->
     main cmdparse subprocess_call tmpdir args = Ok out ->
     fs_glob fs (PosixPath.join tmpdir (str "cmd.*")) = []).
Proof.
  intros Hc. destruct (collect_unfiltered _ _ _ _ Hc) as [Hrec Hlen].
  assert (forall state r, In r recs -> duplicate fs state r = Raise (KeyError "file"))
    as Hdup.
  { intros state r Hr. rewrite Forall_forall in Hrec.
    destruct (Hrec r) as (pid & ppid & fn & dir & cmd & ->); [by apply list_elem_of_In|].
    apply duplicate_process_record. }
  assert (forall old out, merge fs old recs = Ok out ->
     recs = [] /\ fs_glob fs (PosixPath.join tmpdir (str "cmd.*")) = []) as Hmerge.
  { intros old out [Hok _]%merge_from_ok_inv.
    destruct recs as [|r recs'].
    - split; [done|]. by apply length_zero_iff_nil.
    - exfalso. assert (entry_ok fs r = true) as Hr.
      { eapply forallb_In; [exact Hok|]. apply in_or_app. right. by left. }
      specialize (Hdup ∅ r (or_introl eq_refl)).
      rewrite duplicate_entry_key in Hdup. unfold entry_ok in Hr.
      destruct (entry_key fs r) as [[h|]|]; simpl in *;
        [case_bool_decide|..]; discriminate. }
  split; [|split; [done|split; [done|split]]].
  - eapply Forall_impl; [exact Hrec|]. simpl.
    intros r (pid & ppid & fn & dir & cmd & ->).
    repeat split; try reflexivity; by eexists.
  - destruct recs as [|r recs']; [done|]. intros _.
    unfold merge. simpl. by rewrite (Hdup ∅ r (or_introl eq_refl)).
  - intros args code out Hf Hsc Hmain. unfold main, run_build in Hmain.
    rewrite Hsc, Hf in Hmain. simpl in Hmain.
    destruct (if from_option id false (append args) then _ else _) as [currents|];
      [|discriminate]. simpl in Hmain. rewrite Hc in Hmain. simpl in Hmain.
    destruct (merge fs currents recs) as [commands|] eqn:Hm; [|discriminate].
    by destruct (Hmerge _ _ Hm).
Qed.

(** ** [main] *)

(** C9. [main] does not look at the exit code of the build before it
    collects, merges and writes: what it writes is the same whatever the
    build returned, and the value it returns is the exit code of the
    build. *)
Theorem main_returns_build_exit_code (cmdparse : list pystr -> result atoms)
    (subprocess_call : list pystr -> pystr -> result (Z * filesystem))
    (tmpdir : pystr) (args : arguments) (code : Z) (fs : filesystem) :
  subprocess_call (build args) tmpdir = Ok (code, fs) ->
  (forall r, main cmdparse subprocess_call tmpdir args = Ok r -> r.1 = code) /\
  (forall currents new commands,
     (if from_option id false (append args)
      then load_current_cdb fs (cdb args) else Ok []) = Ok currents ->
     collect cmdparse fs (negb (from_option id false (filtering args))) tmpdir = Ok new ->
     merge fs currents new = Ok commands ->
     fs_writable fs (cdb args) = true ->
     main cmdparse subprocess_call tmpdir args = Ok (code, commands)) /\
  (forall subprocess_call' code',
     subprocess_call' (build args) tmpdir = Ok (code', fs) ->
     match main cmdparse subprocess_call tmpdir args,
           main cmdparse subprocess_call' tmpdir args with
     | Ok (c, db), Ok (c', db') => c = code /\ c' = code' /\ db = db'
     | Raise e, Raise e' => e = e'
     | _, _ => False
     end).
Proof.
  intros Hsc. split; [|split].
  - intros r. unfold main, run_build. rewrite Hsc. simpl.
    destruct (if from_option id false (append args) then _ else _); [|discriminate].
    simpl. destruct (collect _ _ _ _ ≫= _); [|discriminate]. simpl.
    destruct (fs_writable fs (cdb args)); [|discriminate]. by intros [= <-].
  - intros currents new commands Hcur Hnew Hm Hw.
    unfold main, run_build. rewrite Hsc. simpl. rewrite Hcur. simpl.
    rewrite Hnew. simpl. rewrite Hm. simpl. by rewrite Hw.
  - intros sc' code' Hsc'. unfold main, run_build. rewrite Hsc, Hsc'. simpl.
    destruct (if from_option id false (append args) then _ else _); [|done].
    simpl. destruct (collect _ _ _ _ ≫= _); [|done]. simpl.
    by destruct (fs_writable fs (cdb args)).
Qed.

(** ** [os.path.abspath] *)

Lemma str_split_sep_app sep a b :
  str_split sep (a ++ sep :: b) = str_split sep a ++ str_split sep b.
Proof.
  induction a as [|c a IH]; simpl.
  - by rewrite ascii_eqb_refl.
  - destruct (ascii_eqb c sep); rewrite IH; [done|].
    destruct (str_split sep a) eqn:E; [by apply str_split_nonnil in E|done].
Qed.

Lemma str_split_pieces sep s : Forall (fun p => mem sep p = false) (str_split sep s).
Proof.
  induction s as [|c s IH]; simpl; [by repeat constructor|].
  destruct (ascii_eqb c sep) eqn:Hc; [by constructor|].
  destruct (str_split sep s) as [|w ws] eqn:E; [by apply str_split_nonnil in E|].
  inversion IH; subst. constructor; [|done]. simpl.
  apply orb_false_iff. split; [|done].
  apply ascii_eqb_false. apply ascii_eqb_false in Hc. congruence.
Qed.

Lemma str_join_snoc sep l x :
  l <> [] -> str_join sep (l ++ [x]) = str_join sep l ++ sep ++ x.
Proof.
  induction l as [|y l IH]; [done|]. intros _.
  destruct l as [|z l]; [reflexivity|].
  change (str_join sep ((y :: z :: l) ++ [x])) with (y ++ sep ++ str_join sep ((z :: l) ++ [x])).
  rewrite IH by done.
  change (str_join sep (y :: z :: l)) with (y ++ sep ++ str_join sep (z :: l)).
  by rewrite <- !app_assoc.
Qed.

Lemma endswith_snoc c s x : endswith c (s ++ [x]) = ascii_eqb x c.
Proof. unfold endswith. by rewrite last_snoc. Qed.

Lemma endswith_inv c s : endswith c s = true -> exists s', s = s' ++ [c].
Proof.
  unfold endswith. destruct (last s) as [x|] eqn:E; [|discriminate].
  intros ->%ascii_eqb_true. by apply last_Some.
Qed.

Lemma endswith_app_no c s t :
  t <> [] -> mem c t = false -> endswith c (s ++ t) = false.
Proof.
  intros Ht Hm. destruct (exists_last Ht) as (t' & x & ->).
  rewrite app_assoc, endswith_snoc.
  rewrite mem_app in Hm. apply orb_false_iff in Hm as [_ Hx].
  simpl in Hx. rewrite orb_false_r in Hx.
  apply ascii_eqb_false. apply ascii_eqb_false in Hx. congruence.
Qed.

Lemma norm_step_components k acc comp :
  Forall component acc -> mem PosixPath.sep comp = false ->
  Forall component (PosixPath.norm_step k acc comp).
Proof.
  intros Hacc Hcomp. unfold PosixPath.norm_step.
  destruct (PosixPath.pystr_eqb comp [] || _) eqn:Hskip; [done|].
  apply orb_false_iff in Hskip as [Hne _].
  destruct (_ || _ || _).
  - apply Forall_app. split; [done|]. repeat constructor; [|done].
    intros ->. unfold PosixPath.pystr_eqb in Hne. by rewrite bool_decide_eq_true_2 in Hne.
  - clear -Hacc. induction Hacc as [|x [|y l] Hx Hl IH]; simpl; [constructor..|].
    constructor; [done|]. apply IH.
Qed.

Lemma fold_norm_step_components k pieces acc :
  Forall component acc -> Forall (fun p => mem PosixPath.sep p = false) pieces ->
  Forall component (fold_left (PosixPath.norm_step k) pieces acc).
Proof.
  intros Hacc Hp. revert acc Hacc. induction Hp as [|p pieces Hp _ IH]; intros acc Hacc;
    simpl; [done|].
  apply IH. by apply norm_step_components.
Qed.

Lemma str_join_components_end (comps : list pystr) prefix :
  comps <> [] -> Forall component comps ->
  endswith PosixPath.sep (prefix ++ str_join [PosixPath.sep] comps) = false.
Proof.
  intros Hne Hall. destruct (exists_last Hne) as (l & x & ->).
  apply Forall_app in Hall as [_ Hx]. inversion Hx as [|? ? [Hx1 Hx2] _]; subst.
  destruct l as [|y l].
  - simpl. by apply endswith_app_no.
  - rewrite str_join_snoc by done. rewrite !app_assoc. by apply endswith_app_no.
Qed.

Lemma norm_step_plain k acc op :
  plain_name op = true -> PosixPath.norm_step k acc op = acc ++ [op].
Proof.
  unfold plain_name, PosixPath.norm_step.
  intros [[[_ Hne]%andb_true_iff Hdot%negb_true_iff]%andb_true_iff
            Hdd%negb_true_iff]%andb_true_iff.
  rewrite Hdot, Hdd. simpl.
  destruct op; [done|]. unfold PosixPath.pystr_eqb.
  by rewrite bool_decide_eq_false_2.
Qed.

Lemma norm_step_empty k acc : PosixPath.norm_step k acc [] = acc.
Proof. reflexivity. Qed.

Lemma initial_slashes_isabs d :
  PosixPath.isabs d = true -> exists k, PosixPath.initial_slashes d = S k.
Proof.
  unfold PosixPath.isabs, PosixPath.initial_slashes. destruct d as [|c d]; [done|].
  simpl. intros ->. simpl. destruct (_ && _); eauto.
Qed.

Lemma plain_name_inv op :
  plain_name op = true ->
  exists c op', op = c :: op' /\ c <> PosixPath.sep /\ mem PosixPath.sep op = false.
Proof.
  unfold plain_name.
  intros [[[Hm%negb_true_iff Hne]%andb_true_iff _]%andb_true_iff _]%andb_true_iff.
  destruct op as [|c op']; [done|]. exists c, op'. split; [done|]. split; [|done].
  simpl in Hm. apply orb_false_iff in Hm as [Hc _].
  apply ascii_eqb_false in Hc. congruence.
Qed.

Lemma initial_slashes_join d op :
  PosixPath.isabs d = true -> plain_name op = true ->
  PosixPath.initial_slashes (PosixPath.join d op) = PosixPath.initial_slashes d.
Proof.
  intros Hd (c & op' & -> & Hc & _)%plain_name_inv.
  apply ascii_eqb_false in Hc.
  unfold PosixPath.join, PosixPath.initial_slashes, PosixPath.isabs, startswith in *.
  simpl. rewrite Hc. simpl.
  destruct d as [|c1 [|c2 [|c3 d]]]; [done|..]; simpl in Hd; rewrite ?Hd.
  - unfold endswith. simpl. rewrite Hd. simpl. by rewrite Hd, Hc.
  - unfold endswith. simpl. destruct (ascii_eqb c2 PosixPath.sep) eqn:H2; simpl;
      rewrite Hd, H2; simpl; rewrite ?Hc, ?ascii_eqb_refl; reflexivity.
  - destruct (endswith _ _); simpl; rewrite Hd; reflexivity.
Qed.

Lemma normpath_absolute d :
  PosixPath.isabs d = true ->
  exists k,
    PosixPath.initial_slashes d = S k /\
    PosixPath.normpath d =
    repeat PosixPath.sep (S k) ++
    str_join [PosixPath.sep]
      (fold_left (PosixPath.norm_step (S k)) (str_split PosixPath.sep d) []).
Proof.
  intros Hd. destruct (initial_slashes_isabs d Hd) as [k Hk]. exists k.
  split; [done|]. unfold PosixPath.normpath. destruct d as [|c d]; [done|].
  by rewrite Hk.
Qed.

Lemma join_absolute d op :
  PosixPath.isabs d = true -> PosixPath.isabs op = false ->
  PosixPath.isabs (PosixPath.join d op) = true.
Proof.
  unfold PosixPath.isabs, PosixPath.join. intros Hd ->. destruct d as [|c d]; [done|].
  simpl. by destruct (endswith _ _).
Qed.

Lemma normpath_isabs d :
  PosixPath.isabs d = true -> PosixPath.isabs (PosixPath.normpath d) = true.
Proof.
  intros (k & _ & ->)%normpath_absolute. simpl. apply ascii_eqb_refl.
Qed.

Lemma abspath_isabs cwd path :
  PosixPath.isabs cwd = true -> PosixPath.isabs (PosixPath.abspath cwd path) = true.
Proof.
  intros Hc. unfold PosixPath.abspath.
  destruct (PosixPath.isabs path) eqn:Hp; apply normpath_isabs; [done|].
  by apply join_absolute.
Qed.

(** A plain name is appended to the normalised directory. *)
Lemma normpath_join_plain d op :
  PosixPath.isabs d = true -> plain_name op = true ->
  PosixPath.normpath (PosixPath.join d op) = PosixPath.join (PosixPath.normpath d) op.
Proof.
  intros Hd Hop.
  destruct (plain_name_inv op Hop) as (c & op' & Hopeq & Hc & Hmem).
  assert (PosixPath.isabs op = false) as Hrel.
  { rewrite Hopeq. simpl. apply ascii_eqb_false. congruence. }
  destruct (normpath_absolute d Hd) as (k & Hk & Hnd).
  destruct (normpath_absolute _ (join_absolute d op Hd Hrel)) as (k' & Hk' & Hnj).
  rewrite initial_slashes_join in Hk' by done.
  assert (k' = k) as -> by congruence.
  rewrite Hnj, Hnd. clear Hnj Hnd.
  set (comps := fold_left (PosixPath.norm_step (S k)) (str_split PosixPath.sep d) []).
  assert (fold_left (PosixPath.norm_step (S k))
            (str_split PosixPath.sep (PosixPath.join d op)) [] = comps ++ [op]) as ->.
  { unfold PosixPath.join. unfold PosixPath.isabs in Hrel. rewrite Hrel.
    assert (is_nil d = false) as -> by (by destruct d). simpl.
    destruct (endswith PosixPath.sep d) eqn:He.
    - apply endswith_inv in He as [d' ->]. subst comps.
      rewrite <- app_assoc. simpl. rewrite !str_split_sep_app. simpl.
      rewrite (str_split_no_sep _ _ Hmem).
      rewrite !fold_left_app. simpl. rewrite norm_step_empty.
      by apply norm_step_plain.
    - rewrite str_split_sep_app, (str_split_no_sep _ _ Hmem).
      rewrite fold_left_app. simpl. by apply norm_step_plain. }
  assert (Forall component comps) as Hcomps.
  { apply fold_norm_step_components; [constructor|apply str_split_pieces]. }
  unfold PosixPath.join. unfold PosixPath.isabs in Hrel. rewrite Hrel.
  destruct comps as [|x comps'] eqn:Ecomps.
  - simpl. rewrite app_nil_r.
    change (PosixPath.sep :: repeat PosixPath.sep k) with (repeat PosixPath.sep (S k)).
    assert (endswith PosixPath.sep (repeat PosixPath.sep (S k)) = true) as ->.
    { cbn [repeat]. rewrite repeat_cons, endswith_snoc. apply ascii_eqb_refl. }
    reflexivity.
  - rewrite str_join_snoc by done.
    rewrite (str_join_components_end (x :: comps')) by done.
    assert (is_nil (repeat PosixPath.sep (S k) ++ str_join [PosixPath.sep] (x :: comps')) = false)
      as -> by reflexivity.
    simpl. by rewrite <- !app_assoc.
Qed.

(** ** [format_record] *)

Lemma traverse_map {A B} (f : A -> result B) (g : A -> B) l :
  (forall x, f x = Ok (g x)) -> traverse f l = Ok (map g l).
Proof.
  intros Hf. induction l as [|x l IH]; simpl; [done|]. by rewrite Hf, IH.
Qed.

Lemma format_record_Compile cmdparse fs record command directory operands :
  record !! "command" = Some (PList command) ->
  record !! "directory" = Some (PStr directory) ->
  cmdparse command = Ok {| action := Compile; files := operands |} ->
  format_record cmdparse fs record =
  Ok (map (fun operand =>
             cdb_entry directory (join_command command)
               (PosixPath.abspath (fs_cwd fs) operand)) operands).
Proof.
  intros Hc Hd Hp. unfold format_record, getitem. rewrite Hc, Hd.
  cbn [mbind result_bind as_list]. rewrite Hp.
  cbn [mbind result_bind action files is_compile].
  apply traverse_map. intros operand. reflexivity.
Qed.

(** What [format_record] computes for a record the filter lets through and
    whose action is Compile: one entry per source-file operand, in order,
    with the directory of the record, the argument vector joined by single
    spaces, and [os.path.abspath] of the operand.  Only when the collecting
    process runs in the directory of the record is that the operand
    resolved relative to the directory of the record. *)
Lemma format_record_entries (cmdparse : list pystr -> result atoms)
    (fs : filesystem) (record : gmap string pyval) (command : list pystr)
    (directory : pystr) (operands : list pystr) :
  record !! "command" = Some (PList command) ->
  record !! "directory" = Some (PStr directory) ->
  general_filter record = Ok true ->
  cmdparse command = Ok {| action := Compile; files := operands |} ->
  chain cmdparse fs [record] =
  Ok (map (fun operand =>
             cdb_entry directory (join_command command)
               (PosixPath.abspath (fs_cwd fs) operand)) operands) /\
  (fs_cwd fs = directory -> PosixPath.isabs directory = true ->
   Forall (fun operand =>
     let file := PosixPath.abspath (fs_cwd fs) operand in
     PosixPath.isabs file = true /\
     (PosixPath.isabs operand = true -> file = PosixPath.normpath operand) /\
     (PosixPath.isabs operand = false ->
      file = PosixPath.normpath (PosixPath.join directory operand)) /\
     (plain_name operand = true ->
      file = PosixPath.join (PosixPath.normpath directory) operand)) operands).
Proof.
  intros Hc Hd Hfilter Hp. split.
  - simpl. rewrite Hfilter. simpl.
    rewrite (format_record_Compile _ _ _ _ _ _ Hc Hd Hp). simpl.
    by rewrite app_nil_r.
  - intros Hcwd Habs. apply Forall_forall. intros operand _. simpl.
    rewrite Hcwd. split; [by apply abspath_isabs|].
    unfold PosixPath.abspath. split; [by intros ->|]. split; [by intros ->|].
    intros Hplain.
    destruct (plain_name_inv _ Hplain) as (c & op' & -> & Hne & _).
    assert (PosixPath.isabs (c :: op') = false) as ->.
    { simpl. apply ascii_eqb_false. congruence. }
    by apply normpath_join_plain.
Qed.

(** ** Regular expressions: [matches] decides [lang] *)

Section Regex.
Import Re.

Lemma lang_nil_nullable r : lang r [] -> nullable r = true.
Proof.
  intros H. remember [] as s eqn:Hs. induction H; simpl; try discriminate; try reflexivity.
  - apply app_eq_nil in Hs as [-> ->]. by rewrite IHlang1, IHlang2.
  - by rewrite IHlang.
  - rewrite IHlang by done. apply orb_true_r.
Qed.

Lemma nullable_lang_nil r : nullable r = true -> lang r [].
Proof.
  induction r; simpl; intros H; try discriminate.
  - constructor.
  - apply andb_true_iff in H as [H1 H2].
    change (@nil ascii) with (@nil ascii ++ []). constructor; auto.
  - apply orb_true_iff in H as [H|H]; [apply lang_alt_l|apply lang_alt_r]; auto.
  - constructor.
  - constructor.
Qed.

Lemma lang_of_bool b s : lang (of_bool b) s <-> b = true /\ s = [].
Proof.
  destruct b; simpl; split.
  - intros H. by inversion H.
  - intros [_ ->]. constructor.
  - intros H. inversion H.
  - by intros [? _].
Qed.

Lemma lang_seq_inv r1 r2 s :
  lang (Seq r1 r2) s <-> exists s1 s2, s = s1 ++ s2 /\ lang r1 s1 /\ lang r2 s2.
Proof.
  split.
  - intros H. inversion H; subst. eauto.
  - intros (s1 & s2 & -> & H1 & H2). by constructor.
Qed.

Lemma lang_alt_inv r1 r2 s : lang (Alt r1 r2) s <-> lang r1 s \/ lang r2 s.
Proof.
  split.
  - intros H. inversion H; subst; auto.
  - intros [H|H]; [by apply lang_alt_l|by apply lang_alt_r].
Qed.

Lemma lang_opt_inv r s : lang (Opt r) s <-> s = [] \/ lang r s.
Proof.
  split.
  - intros H. inversion H; subst; auto.
  - intros [->|H]; [apply lang_opt_none|by apply lang_opt_some].
Qed.

Lemma lang_chr_inv c s : lang (Chr c) s <-> s = [c].
Proof. split; [intros H; by inversion H|intros ->; constructor]. Qed.

Lemma lang_eps_inv s : lang Eps s <-> s = [].
Proof. split; [intros H; by inversion H|intros ->; constructor]. Qed.

Lemma lang_deriv a r s : lang (deriv a r) s -> lang r (a :: s).
Proof.
  revert s. induction r; intros s; simpl; intros H.
  - inversion H.
  - inversion H.
  - apply lang_of_bool in H as [->%ascii_eqb_true ->]. constructor.
  - apply lang_of_bool in H as [Hne%negb_true_iff ->].
    constructor. by apply ascii_eqb_false.
  - apply lang_of_bool in H as [Hin ->]. constructor.
    apply existsb_exists in Hin as (x & Hx & ->%ascii_eqb_true). done.
  - apply lang_of_bool in H as [Hne%negb_true_iff ->].
    constructor. by apply ascii_eqb_false.
  - destruct (nullable r1) eqn:Hn.
    + apply lang_alt_inv in H as [H|H].
      * apply lang_seq_inv in H as (s1 & s2 & -> & H1 & H2).
        change (a :: s1 ++ s2) with ((a :: s1) ++ s2). constructor; auto.
      * change (a :: s) with ([] ++ a :: s). constructor; auto.
        by apply nullable_lang_nil.
    + apply lang_seq_inv in H as (s1 & s2 & -> & H1 & H2).
      change (a :: s1 ++ s2) with ((a :: s1) ++ s2). constructor; auto.
  - apply lang_alt_inv in H as [H|H]; [apply lang_alt_l|apply lang_alt_r]; auto.
  - apply lang_seq_inv in H as (s1 & s2 & -> & H1 & H2).
    change (a :: s1 ++ s2) with ((a :: s1) ++ s2). constructor; auto.
  - apply lang_opt_some. auto.
Qed.

Lemma deriv_lang a r s : lang r (a :: s) -> lang (deriv a r) s.
Proof.
  intros H. remember (a :: s) as w eqn:Hw. revert s Hw.
  induction H; intros s' Hw; simpl; try discriminate.
  - injection Hw as -> <-. rewrite ascii_eqb_refl. constructor.
  - injection Hw as -> <-. apply lang_of_bool. split; [|done].
    apply negb_true_iff. by apply ascii_eqb_false.
  - injection Hw as -> <-. apply lang_of_bool. split; [|done].
    apply existsb_exists. exists a. split; [done|apply ascii_eqb_refl].
  - injection Hw as -> <-. apply lang_of_bool. split; [|done].
    apply negb_true_iff. by apply ascii_eqb_false.
  - destruct s1 as [|b s1].
    + simpl in Hw. subst s2. rewrite (lang_nil_nullable _ H).
      apply lang_alt_r. by apply IHlang2.
    + injection Hw as -> <-.
      assert (lang (Seq (deriv a r1) r2) (s1 ++ s2)) as Hs
        by (constructor; auto).
      destruct (nullable r1); [by apply lang_alt_l|done].
  - apply lang_alt_l. auto.
  - apply lang_alt_r. auto.
  - destruct s1 as [|b s1].
    + simpl in Hw. by apply IHlang2.
    + injection Hw as -> <-. constructor; auto.
  - auto.
Qed.

Lemma matches_lang r s : matches r s = true <-> lang r s.
Proof.
  revert r. induction s as [|a s IH]; intros r; simpl.
  - split; [apply nullable_lang_nil|apply lang_nil_nullable].
  - rewrite IH. split; [apply lang_deriv|apply deriv_lang].
Qed.

Lemma dollar_match_lang body s :
  dollar_match body s = true <->
  lang body s \/ exists s', s = s' ++ [newline] /\ lang body s'.
Proof.
  unfold dollar_match. rewrite orb_true_iff, andb_true_iff, !matches_lang.
  split; (intros [H|H]; [by left|right]).
  - destruct H as [(s' & ->)%endswith_inv H]. rewrite removelast_snoc in H. eauto.
  - destruct H as (s' & -> & H). rewrite endswith_snoc, removelast_snoc.
    split; [apply ascii_eqb_refl|done].
Qed.

(** *** The languages of the building blocks *)

Lemma lang_lit w s : lang (lit w) s <-> s = w.
Proof.
  revert s. induction w as [|c w IH]; intros s; simpl.
  - apply lang_eps_inv.
  - destruct w as [|c' w]; [apply lang_chr_inv|].
    rewrite lang_seq_inv. split.
    + intros (s1 & s2 & -> & ->%lang_chr_inv & ->%IH). done.
    + intros ->. exists [c], (c' :: w). split; [done|]. split; [constructor|by apply IH].
Qed.

Lemma lang_seqs_cons r rs s :
  lang (seqs (r :: rs)) s <->
  exists s1 s2, s = s1 ++ s2 /\ lang r s1 /\ lang (seqs rs) s2.
Proof.
  destruct rs as [|r' rs].
  - simpl. split.
    + intros H. exists s, []. rewrite app_nil_r. repeat split; [done|constructor].
    + intros (s1 & s2 & -> & H1 & ->%lang_eps_inv). by rewrite app_nil_r.
  - apply lang_seq_inv.
Qed.

Lemma lang_star_notchr c s : mem c s = false -> lang (Star (NotChr c)) s.
Proof.
  induction s as [|a s IH]; simpl; [constructor|].
  intros [Ha Hs]%orb_false_iff.
  change (a :: s) with ([a] ++ s). constructor; [|auto].
  constructor. apply ascii_eqb_false in Ha. congruence.
Qed.

Lemma first_occurrence c s :
  mem c s = true -> exists u rest, s = u ++ c :: rest /\ mem c u = false.
Proof.
  induction s as [|a s IH]; simpl; [discriminate|].
  destruct (ascii_eqb c a) eqn:Ha.
  - apply ascii_eqb_true in Ha as <-. intros _. by exists [], s.
  - simpl. intros (u & rest & -> & Hu)%IH. exists (a :: u), rest.
    split; [done|]. simpl. by rewrite Ha.
Qed.

Lemma endswith_app c s t : t <> [] -> endswith c (s ++ t) = endswith c t.
Proof.
  intros Ht. destruct (exists_last Ht) as (t' & x & ->).
  by rewrite app_assoc, !endswith_snoc.
Qed.

Lemma endswith_mem c s : endswith c s = true -> mem c s = true.
Proof.
  intros [s' ->]%endswith_inv. rewrite mem_app. simpl.
  rewrite ascii_eqb_refl. apply orb_true_r.
Qed.

(** [([^c]*c)*]: the empty string and the strings that end with [c]. *)
Lemma lang_terminated c s :
  lang (Star (Seq (Star (NotChr c)) (Chr c))) s <-> s = [] \/ endswith c s = true.
Proof.
  split.
  - intros H. remember (Star (Seq (Star (NotChr c)) (Chr c))) as R eqn:HR.
    induction H; try discriminate; [by left|].
    injection HR as ->. right.
    apply lang_seq_inv in H as (u & v & -> & _ & ->%lang_chr_inv).
    destruct (IHlang2 eq_refl) as [->|Hs2].
    + by rewrite app_nil_r, endswith_snoc, ascii_eqb_refl.
    + rewrite endswith_app; [done|]. intros ->. discriminate.
  - remember (length s) as n eqn:Hn. revert s Hn.
    induction n as [n IH] using lt_wf_ind. intros s Hn [->|Hend]; [constructor|].
    destruct (first_occurrence c s (endswith_mem _ _ Hend)) as (u & rest & -> & Hu).
    replace (u ++ c :: rest) with ((u ++ [c]) ++ rest) in * by by rewrite <- app_assoc.
    constructor.
    + constructor; [by apply lang_star_notchr|constructor].
    + apply (IH (length rest)); [|done|].
      * rewrite Hn, !length_app. simpl. lia.
      * destruct rest as [|x rest]; [by left|right].
        rewrite endswith_app in Hend; done.
Qed.

End Regex.

(** ** The names the patterns accept *)

Section Patterns.
Import Re.

Lemma lang_oneof_inv cs s : lang (OneOf cs) s <-> exists a, s = [a] /\ In a cs.
Proof.
  split.
  - intros H. inversion H; subst. eauto.
  - intros (a & -> & Ha). by constructor.
Qed.

Lemma lang_dot_inv s : lang Dot s <-> exists a, s = [a] /\ a <> newline.
Proof.
  split.
  - intros H. inversion H; subst. eauto.
  - intros (a & -> & Ha). by constructor.
Qed.

Lemma lang_dirs p : lang dirs p <-> dir_prefix p.
Proof. apply lang_terminated. Qed.

Lemma lang_triples p : lang triples p <-> p = [] \/ endswith "-" p = true.
Proof. apply lang_terminated. Qed.

Lemma lang_target_prefix p :
  (exists p1 p2, p = p1 ++ p2 /\ lang dirs p1 /\ lang triples p2) <-> target_prefix p.
Proof.
  unfold target_prefix. split.
  - intros (p1 & p2 & -> & [->|H1]%lang_dirs & [->|H2]%lang_triples).
    + by left.
    + right. right. done.
    + right. left. by rewrite app_nil_r.
    + right. right. rewrite endswith_app; [done|]. by intros ->.
  - intros [->|[H|H]].
    + exists [], []. repeat split; constructor.
    + exists p, []. rewrite app_nil_r. repeat split; [|constructor].
      apply lang_dirs. by right.
    + exists [], p. repeat split; [constructor|]. apply lang_triples. by right.
Qed.

Lemma lang_version majors v :
  lang (version majors) v <-> version_suffix not_newline majors v.
Proof.
  unfold version, version_suffix. cbn [seqs]. rewrite lang_opt_inv.
  split; (intros [->|H]; [by left|right]).
  - apply lang_seq_inv in H as (s1 & s2 & -> & ->%lang_chr_inv & H).
    apply lang_seq_inv in H as (s1 & s3 & -> & (m & -> & Hm)%lang_oneof_inv & H).
    apply lang_seq_inv in H as (s1 & s4 & -> & (x & -> & Hx)%lang_dot_inv & H).
    apply lang_oneof_inv in H as (d & -> & Hd). by exists m, x, d.
  - destruct H as (m & x & d & -> & Hm & Hx & Hd).
    change ["-"%char; m; x; d] with (["-"%char] ++ [m] ++ [x] ++ [d]).
    repeat (constructor; try done).
Qed.

Lemma lang_cc_or_pp s : lang cc_or_pp s <-> s = str "cc" \/ s = str "++".
Proof. unfold cc_or_pp. by rewrite lang_alt_inv, !lang_lit. Qed.

Lemma lang_pattern_cc s :
  lang pattern_cc s <->
  exists p core, s = p ++ core /\ dir_prefix p /\ (core = str "cc" \/ core = str "c++").
Proof.
  unfold pattern_cc. cbn [seqs]. split.
  - intros (p & s1 & -> & Hp%lang_dirs & H)%lang_seq_inv.
    apply lang_seq_inv in H as (s2 & s3 & -> & ->%lang_chr_inv & H).
    exists p, ("c"%char :: s3). split; [done|]. split; [done|].
    apply lang_alt_inv in H as [->%lang_chr_inv| ->%lang_lit]; auto.
  - intros (p & core & -> & Hp & Hcore).
    constructor; [by apply lang_dirs|].
    destruct Hcore as [-> | ->].
    + change (str "cc") with (["c"%char] ++ ["c"%char]).
      constructor; [constructor|apply lang_alt_l; constructor].
    + change (str "c++") with (["c"%char] ++ str "++").
      constructor; [constructor|apply lang_alt_r; by apply lang_lit].
Qed.

Lemma lang_pattern_llvm s :
  lang pattern_llvm s <->
  exists p core, s = p ++ core /\ dir_prefix p /\
                 (core = str "llvm-gcc" \/ core = str "llvm-g++").
Proof.
  unfold pattern_llvm. cbn [seqs]. split.
  - intros (p & s1 & -> & Hp%lang_dirs & H)%lang_seq_inv.
    apply lang_seq_inv in H as (s2 & s3 & -> & ->%lang_lit & H).
    exists p, (str "llvm-g" ++ s3). split; [done|]. split; [done|].
    apply lang_cc_or_pp in H as [-> | ->]; auto.
  - intros (p & core & -> & Hp & Hcore).
    constructor; [by apply lang_dirs|].
    destruct Hcore as [-> | ->].
    + change (str "llvm-gcc") with (str "llvm-g" ++ str "cc").
      constructor; [by apply lang_lit|apply lang_cc_or_pp; auto].
    + change (str "llvm-g++") with (str "llvm-g" ++ str "++").
      constructor; [by apply lang_lit|apply lang_cc_or_pp; auto].
Qed.

Lemma lang_pattern_gcc s :
  lang pattern_gcc s <->
  exists p core v, s = p ++ core ++ v /\ target_prefix p /\
                   (core = str "gcc" \/ core = str "g++") /\
                   version_suffix not_newline (str "2345") v.
Proof.
  unfold pattern_gcc. cbn [seqs]. split.
  - intros (p1 & s1 & -> & Hp1 & H)%lang_seq_inv.
    apply lang_seq_inv in H as (p2 & s2 & -> & Hp2 & H).
    apply lang_seq_inv in H as (s3 & s4 & -> & ->%lang_chr_inv & H).
    apply lang_seq_inv in H as (core & v & -> & Hcore%lang_cc_or_pp & Hv%lang_version).
    exists (p1 ++ p2), ("g"%char :: core), v.
    split; [by rewrite <- !app_assoc|].
    split; [apply lang_target_prefix; eauto|]. split; [|done].
    destruct Hcore as [-> | ->]; auto.
  - intros (p & core & v & -> & (p1 & p2 & -> & Hp1 & Hp2)%lang_target_prefix & Hcore & Hv).
    rewrite <- app_assoc. constructor; [done|]. constructor; [done|].
    assert (exists c, core = ["g"%char] ++ c /\ lang cc_or_pp c) as (c & -> & Hc).
    { destruct Hcore as [-> | ->]; eexists; (split; [reflexivity|]);
        apply lang_cc_or_pp; auto. }
    rewrite <- app_assoc. constructor; [constructor|].
    constructor; [done|]. by apply lang_version.
Qed.

Lemma lang_pattern_clang s :
  lang pattern_clang s <->
  exists p core v, s = p ++ core ++ v /\ target_prefix p /\
                   (core = str "clang" \/ core = str "clang++") /\
                   version_suffix not_newline (str "23") v.
Proof.
  unfold pattern_clang. cbn [seqs]. split.
  - intros (p1 & s1 & -> & Hp1 & H)%lang_seq_inv.
    apply lang_seq_inv in H as (p2 & s2 & -> & Hp2 & H).
    apply lang_seq_inv in H as (s3 & s4 & -> & ->%lang_lit & H).
    apply lang_seq_inv in H as (pp & v & -> & Hpp%lang_opt_inv & Hv%lang_version).
    exists (p1 ++ p2), (str "clang" ++ pp), v.
    split; [by rewrite <- !app_assoc|].
    split; [apply lang_target_prefix; eauto|]. split; [|done].
    destruct Hpp as [-> | ->%lang_lit]; auto.
  - intros (p & core & v & -> & (p1 & p2 & -> & Hp1 & Hp2)%lang_target_prefix & Hcore & Hv).
    rewrite <- app_assoc. constructor; [done|]. constructor; [done|].
    assert (exists c, core = str "clang" ++ c /\ lang (Opt (lit (str "++"))) c)
      as (c & -> & Hc).
    { destruct Hcore as [-> | ->].
      - exists []. split; [reflexivity|constructor].
      - exists (str "++"). split; [reflexivity|]. apply lang_opt_some. by apply lang_lit. }
    rewrite <- app_assoc. constructor; [by apply lang_lit|].
    constructor; [done|]. by apply lang_version.
Qed.

Lemma lang_patterns s :
  lang pattern_cc s \/ lang pattern_gcc s \/ lang pattern_clang s \/ lang pattern_llvm s
  <-> compiler_name not_newline s.
Proof.
  rewrite lang_pattern_cc, lang_pattern_gcc, lang_pattern_clang, lang_pattern_llvm.
  split.
  - intros [(p & core & -> & ? & ?)|[(p & core & v & -> & ? & ? & ?)|
            [(p & core & v & -> & ? & ? & ?)|(p & core & -> & ? & ?)]]].
    + by apply name_cc.
    + by apply name_gcc.
    + by apply name_clang.
    + by apply name_llvm.
  - intros H. destruct H; [left|right; left|right; right; left|right; right; right];
      eauto 10.
Qed.

Lemma known_compiler_cons executable args :
  known_compiler (executable :: args) =
  Ok (dollar_match pattern_cc executable
      || dollar_match pattern_gcc executable
      || dollar_match pattern_clang executable
      || dollar_match pattern_llvm executable).
Proof.
  unfold known_compiler. cbn [getidx lookup list_lookup mbind result_bind existsb].
  by rewrite orb_false_r, !orb_assoc.
Qed.

Lemma known_compiler_accepted executable args :
  known_compiler (executable :: args) = Ok true <-> accepted_name executable.
Proof.
  rewrite known_compiler_cons. unfold accepted_name.
  rewrite <- lang_patterns.
  split.
  - intros [= H]. rewrite !orb_true_iff, !dollar_match_lang in H.
    destruct H as [[[[H|(name & -> & H)]|[H|(name & -> & H)]]
                     |[H|(name & -> & H)]]|[H|(name & -> & H)]];
      first [left; tauto | right; exists name; split; [done|]; rewrite <- lang_patterns; tauto].
  - intros H. f_equal. rewrite !orb_true_iff, !dollar_match_lang.
    destruct H as [H|(name & -> & H%lang_patterns)].
    + tauto.
    + destruct H as [H|[H|[H|H]]]; eauto 10.
Qed.

End Patterns.

Lemma compiler_name_mono (P Q : ascii -> Prop) s :
  (forall x, P x -> Q x) -> compiler_name P s -> compiler_name Q s.
Proof.
  intros HPQ H.
  assert (forall majors v, version_suffix P majors v -> version_suffix Q majors v) as Hv.
  { intros majors v [->|(m & x & d & -> & ? & ? & ?)]; [by left|right].
    exists m, x, d. auto. }
  destruct H; [by apply name_cc|apply name_gcc|apply name_clang|by apply name_llvm]; auto.
Qed.

(** C6 (amended). [known_compiler] looks at [command[0]] only, compares
    characters as they are, and accepts every token made of: [cc] or [c++]
    after nothing or a prefix ending in [/]; [gcc] or [g++] after nothing or
    a prefix ending in [/] or [-], optionally followed by [-], a digit from
    2 to 5, a dot and a digit; [clang] or [clang++] with the same prefixes
    and the same optional suffix with a first digit 2 or 3; [llvm-gcc] or
    [llvm-g++] after nothing or a prefix ending in [/].  A token it accepts
    has one of these forms, up to the character in the place of the dot and
    one newline at the end.  So [g++-4.9], [clang-3.8] and
    [arm-none-eabi-gcc] are accepted, and [gccfoo], [/usr/bin/python] and
    [my-clang-wrapper] are not. *)
Theorem known_compiler_names (executable : pystr) (args : list pystr) :
  (exists b, known_compiler (executable :: args) = Ok b /\
             (compiler_name is_dot executable -> b = true) /\
             (b = true -> accepted_name executable)) /\
  known_compiler [str "g++-4.9"] = Ok true /\
  known_compiler [str "clang-3.8"] = Ok true /\
  known_compiler [str "arm-none-eabi-gcc"] = Ok true /\
  known_compiler [str "gccfoo"] = Ok false /\
  known_compiler [str "/usr/bin/python"] = Ok false /\
  known_compiler [str "my-clang-wrapper"] = Ok false /\
  known_compiler [str "CC"] = Ok false.
Proof.
  split; [|by vm_compute].
  destruct (known_compiler (executable :: args)) as [b|e] eqn:E; [|discriminate].
  exists b. split; [done|]. split.
  - intros H. assert (accepted_name executable) as Ha.
    { left. apply (compiler_name_mono is_dot); [|done].
      intros x ->. unfold not_newline. discriminate. }
    apply known_compiler_accepted with (args := args) in Ha. congruence.
  - intros ->. by apply known_compiler_accepted in E.
Qed.

(** * The example build *)

Lemma parse_trace_file_example :
  parse (example_fs "/src") (str "/tmp/bear-x/cmd.4711") = Ok example_record_cc /\
  parse (example_fs "/src") (str "/tmp/bear-x/cmd.short") = Raise IndexError /\
  parse (example_fs "/src") (str "/tmp/bear-x/cmd.0") =
    Raise (IOError (str "/tmp/bear-x/cmd.0")).
Proof.
  split; [|split].
  - apply (proj2 (proj2 (parse_trace_file (example_fs "/src")
                           (str "/tmp/bear-x/cmd.4711")))
             (str "4711") (str "4710") (str "execve") (str "/src")
             [str "cc"; str "-c"; str "a.c"; str "-o"; str "a.o"] []);
      reflexivity.
  - apply (proj1 (proj2 (parse_trace_file (example_fs "/src")
                           (str "/tmp/bear-x/cmd.short")))
             (field "1" ++ field "0")); [reflexivity|].
    vm_compute. lia.
  - apply (proj1 (parse_trace_file (example_fs "/src") (str "/tmp/bear-x/cmd.0"))).
    reflexivity.
Defined.

Lemma merge_existence_filter_example :
  Forall (fun e => exists f, e !! "file" = Some (PStr f) /\
                             fs_exists (example_fs "/src") f = true)
    [example_entry_cc] /\
  duplicate (example_fs "/src") ∅ example_entry_gone = Ok (∅, true) /\
  merge_from (example_fs "/src") ∅ ([example_entry_cc] ++ example_entry_gone :: [])
  = merge_from (example_fs "/src") ∅ ([example_entry_cc] ++ []) /\
  exists out, merge (example_fs "/src") [example_entry_gone] [example_entry_cc] = Ok out.
Proof.
  destruct (merge_existence_filter (example_fs "/src")) as (H1 & H2 & H3 & H4).
  split; [|split; [|split]].
  - apply (H1 [example_entry_gone] [example_entry_cc]). reflexivity.
  - apply (H2 ∅ example_entry_gone (str "/src/gone.c")); reflexivity.
  - apply (H3 ∅ [example_entry_cc] [] example_entry_gone (str "/src/gone.c"));
      reflexivity.
  - apply H4. reflexivity.
Defined.

Lemma merge_append_example :
  merge (example_fs "/src") [example_entry_cc] [example_entry_clang]
  = Ok [example_entry_cc].
Proof.
  assert (forallb (entry_ok (example_fs "/src"))
            ([example_entry_cc] ++ [example_entry_clang]) = true) as Hok
    by reflexivity.
  apply (proj2 (proj2 (merge_first_seen_wins (example_fs "/src")
                         [example_entry_cc] [example_entry_clang] Hok))
           (str "/src") (str "/src/a.c") (str "cc -c a.c -o a.o")
           (str "clang -c a.c -o a.o") (str "cc") (str "clang")
           [str "-c"; str "a.c"; str "-o"; str "a.o"]); reflexivity.
Defined.

Lemma hash_cdb_alias_example :
  hash_cdb example_entry_cc = Ok (str "c.a/crs/<>crs/<>-c a.c -o a.o") /\
  hash_cdb example_entry_clang = Ok (str "c.a/crs/<>crs/<>-c a.c -o a.o") /\
  exists out,
    merge (example_fs "/src") [example_entry_clang] [example_entry_cc] = Ok out /\
    length (filter (fun e => hash_cdb e = Ok (str "c.a/crs/<>crs/<>-c a.c -o a.o")) out) = 1.
Proof.
  destruct (hash_cdb_alias_collapse (example_fs "/src")
              example_entry_cc example_entry_clang
              (str "/src/a.c") (str "/src") (str "cc -c a.c -o a.o")
              (str "clang -c a.c -o a.o") (str "cc") (str "clang")
              [str "-c"; str "a.c"; str "-o"; str "a.o"]
              eq_refl eq_refl eq_refl eq_refl eq_refl eq_refl eq_refl eq_refl)
    as (H1 & H2 & H3).
  split; [exact H1|]. split; [exact H2|].
  apply (H3 eq_refl [example_entry_clang] [example_entry_cc] eq_refl).
  - right. by left.
  - by left.
Defined.

Lemma cc1_excluded_example :
  general_filter example_record_cc1 = Ok false /\
  chain example_classify (example_fs "/src") [example_record_cc1; example_record_cc]
  = chain example_classify (example_fs "/src") [example_record_cc].
Proof.
  destruct (cc1_excluded example_classify (example_fs "/src") example_record_cc1
              (str "clang") [str "-cc1"; str "-emit-obj"; str "a.c"]
              [example_record_cc] eq_refl eq_refl (or_introl eq_refl))
    as (_ & _ & H3 & H4).
  split; [exact H3|exact H4].
Defined.

Lemma unfiltered_pipeline_example :
  merge (example_fs "/src") []
    [example_record_cc;
     process_record (str "4712") (str "4710") (str "execve") (str "/src")
       [str "/src/a.out"]]
  = Raise (KeyError "file").
Proof.
  refine (proj1 (proj2 (proj2 (proj2
    (unfiltered_pipeline_raises example_classify example_build (str "/tmp/bear-x")
       (example_fs "/src") _ _)))) _).
  - reflexivity.
  - discriminate.
Defined.

Lemma main_exit_code_example :
  main example_classify example_build (str "/tmp/bear-x") (example_arguments false)
  = Ok (2%Z, [example_entry_cc]).
Proof.
  apply (proj1 (proj2 (main_returns_build_exit_code example_classify example_build
                         (str "/tmp/bear-x") (example_arguments false) 2%Z
                         (example_fs "/src") eq_refl))
           [] [example_entry_cc] [example_entry_cc]); reflexivity.
Defined.

Lemma format_record_entries_example :
  chain example_classify (example_fs "/src") [example_record_cc]
  = Ok [example_entry_cc] /\
  collect example_classify (example_fs "/src") true (str "/tmp/bear-x")
  = Ok [example_entry_cc].
Proof.
  split; [|reflexivity].
  apply (proj1 (format_record_entries example_classify (example_fs "/src")
                  example_record_cc
                  [str "cc"; str "-c"; str "a.c"; str "-o"; str "a.o"]
                  (str "/src") [str "a.c"] eq_refl eq_refl eq_refl eq_refl)).
Defined.

(** The same trace collected by a process that runs in another directory:
    the file of the entry is not below the directory of the record. *)
Lemma format_record_other_cwd :
  general_filter example_record_cc = Ok true /\
  example_classify [str "cc"; str "-c"; str "a.c"; str "-o"; str "a.o"]
  = Ok {| action := Compile; files := [str "a.c"] |} /\
  collect example_classify (example_fs "/home/user") true (str "/tmp/bear-x")
  = Ok [cdb_entry (str "/src") (str "cc -c a.c -o a.o") (str "/home/user/a.c")] /\
  collect example_classify (example_fs "/home/user") true (str "/tmp/bear-x")
  <> Ok [example_entry_cc].
Proof.
  split; [reflexivity|]. split; [reflexivity|]. split; [reflexivity|].
  by vm_compute.
Qed.

(** C1. The code does not do what the claim says when the compiler ran in
    another directory than the collecting process.  [format_record] takes
    the directory of the record for ['directory'] but makes the operand
    absolute with [os.path.abspath], that is against the working directory
    of the collector.  For [cc -c a.c -o a.o] run in [/src/sub] and
    collected from [/src], the entry names [/src/a.c] instead of
    [/src/sub/a.c], the file that was compiled; [merge] finds no such file,
    drops the entry, and [main] writes an empty database. *)
Theorem format_record_wrong_directory :
  parse example_fs_sub (str "/tmp/bear-x/cmd.4721") = Ok example_record_sub /\
  general_filter example_record_sub = Ok true /\
  example_classify [str "cc"; str "-c"; str "a.c"; str "-o"; str "a.o"]
  = Ok {| action := Compile; files := [str "a.c"] |} /\
  collect example_classify example_fs_sub true (str "/tmp/bear-x")
  = Ok [cdb_entry (str "/src/sub") (str "cc -c a.c -o a.o") (str "/src/a.c")] /\
  collect example_classify example_fs_sub true (str "/tmp/bear-x")
  <> Ok [cdb_entry (str "/src/sub") (str "cc -c a.c -o a.o") (str "/src/sub/a.c")] /\
  fs_exists example_fs_sub (str "/src/sub/a.c") = true /\
  fs_exists example_fs_sub (str "/src/a.c") = false /\
  merge example_fs_sub []
    [cdb_entry (str "/src/sub") (str "cc -c a.c -o a.o") (str "/src/a.c")] = Ok [] /\
  main example_classify example_build_sub (str "/tmp/bear-x") (example_arguments false)
  = Ok (0%Z, []).
Proof.
  assert (collect example_classify example_fs_sub true (str "/tmp/bear-x")
          = Ok [cdb_entry (str "/src/sub") (str "cc -c a.c -o a.o") (str "/src/a.c")])
    as Hcollect by (vm_compute; reflexivity).
  split; [vm_compute; reflexivity|]. split; [vm_compute; reflexivity|].
  split; [vm_compute; reflexivity|]. split; [exact Hcollect|].
  split.
  { rewrite Hcollect. intros H.
    apply (f_equal (fun r : result (list (gmap string pyval)) =>
                      match r with Ok [e] => e !! "file" | _ => None end)) in H.
    vm_compute in H. discriminate H. }
  split; [vm_compute; reflexivity|]. split; [vm_compute; reflexivity|].
  split; vm_compute; reflexivity.
Qed.

(** The recognizer is not the one the specification words: a version whose
    first digit is outside 2 to 5 ([gcc]) or 2 to 3 ([clang]) is refused,
    and so is a number of two digits. *)
Lemma known_compiler_not_spec :
  spec_known_compiler (str "gcc-6.1") = true /\
  known_compiler [str "gcc-6.1"] = Ok false /\
  spec_known_compiler (str "clang-4.0") = true /\
  known_compiler [str "clang-4.0"] = Ok false /\
  spec_known_compiler (str "/usr/bin/arm-gcc-10.2") = true /\
  known_compiler [str "/usr/bin/arm-gcc-10.2"] = Ok false.
Proof. by vm_compute. Qed.

(** What the patterns let through besides: [.] is not escaped, and [$]
    matches before a final newline. *)
Lemma known_compiler_loose_ends :
  known_compiler [str "gcc-4x9"] = Ok true /\
  known_compiler [str "cc" ++ [Re.newline]] = Ok true /\
  cancel_parameter [str "clang"; str "-cc1" ++ [Re.newline]] = true.
Proof. by vm_compute. Qed.

(** * Further facts *)

(** ** [join_command] and [shlex.split] *)

Lemma lex_word_step e token quoted c rest :
  plain_char c = true ->
  Shlex.lex "a" e token quoted (c :: rest) = Shlex.lex "a" e (token ++ [c]) quoted rest.
Proof.
  unfold plain_char.
  intros [[Hw%negb_true_iff Hq%negb_true_iff]%andb_true_iff He%negb_true_iff]%andb_true_iff.
  cbn [Shlex.lex].
  change (ascii_eqb "a" " ") with false. change (mem "a" Shlex.quotes) with false.
  change (mem "a" Shlex.escape) with false. cbv iota.
  by rewrite Hw, Hq, He.
Qed.

Lemma lex_word e token quoted w rest :
  forallb plain_char w = true ->
  Shlex.lex "a" e token quoted (w ++ rest) = Shlex.lex "a" e (token ++ w) quoted rest.
Proof.
  revert token. induction w as [|c w IH]; intros token; cbn [app forallb].
  - by rewrite app_nil_r.
  - intros [Hc Hw]%andb_true_iff. rewrite lex_word_step by done.
    rewrite IH by done. by rewrite <- app_assoc.
Qed.

Lemma lex_word_start e c rest :
  plain_char c = true ->
  Shlex.lex " " e [] false (c :: rest) = Shlex.lex "a" e [c] false rest.
Proof.
  unfold plain_char.
  intros [[Hw%negb_true_iff Hq%negb_true_iff]%andb_true_iff He%negb_true_iff]%andb_true_iff.
  cbn [Shlex.lex]. change (ascii_eqb " " " ") with true. cbv iota.
  by rewrite Hw, Hq, He.
Qed.

Lemma lex_word_space e token rest :
  token <> [] ->
  Shlex.lex "a" e token false (" "%char :: rest)
  = Shlex.emit token (Shlex.lex " " " " [] false rest).
Proof.
  intros Ht. cbn [Shlex.lex].
  change (ascii_eqb "a" " ") with false. change (mem "a" Shlex.quotes) with false.
  change (mem "a" Shlex.escape) with false. change (mem " " Shlex.whitespace) with true.
  cbv iota. by destruct token.
Qed.

Lemma lex_word_end e token :
  token <> [] -> Shlex.lex "a" e token false [] = Ok [token].
Proof. intros Ht. by destruct token. Qed.

Lemma lex_join_command e args :
  forallb plain_word args = true ->
  Shlex.lex " " e [] false (join_command args) = Ok args.
Proof.
  revert e. induction args as [|w args IH]; intros e; [done|].
  cbn [forallb]. intros [[Hne Hw]%andb_true_iff Hargs]%andb_true_iff.
  destruct w as [|c w]; [done|]. cbn [forallb] in Hw.
  apply andb_true_iff in Hw as [Hc Hw].
  destruct args as [|w2 args].
  - unfold join_command. cbn [str_join].
    rewrite lex_word_start by done.
    rewrite <- (app_nil_r w), lex_word by done. by rewrite app_nil_r.
  - unfold join_command in *.
    change (str_join (str " ") ((c :: w) :: w2 :: args))
      with (c :: w ++ " "%char :: str_join (str " ") (w2 :: args)).
    rewrite lex_word_start, lex_word, lex_word_space by done.
    by rewrite IH.
Qed.

Lemma shlex_split_join args :
  forallb plain_word args = true -> Shlex.split (join_command args) = Ok args.
Proof. apply lex_join_command. Qed.

(** X1. [shlex.split] undoes [join_command] on arguments free of whitespace,
    quotes and backslashes: the tokens [hash_cdb] sees are the arguments of
    the record. *)
Theorem split_join_command (args : list pystr) :
  forallb plain_word args = true ->
  Shlex.split (join_command args) = Ok args.
Proof. intros H. unfold Shlex.split. by apply lex_join_command. Qed.

Lemma join_command_glue pre a b post :
  join_command (pre ++ (a ++ " "%char :: b) :: post)
  = join_command (pre ++ a :: b :: post).
Proof.
  unfold join_command. induction pre as [|x pre IH].
  - cbn [app]. destruct post as [|y post]; cbn [str_join str list_ascii_of_string];
      by rewrite <- ?app_assoc.
  - cbn [app]. destruct pre as [|x' pre].
    + cbn [app] in *. cbn [str_join] in *. by rewrite IH.
    + cbn [app] in *.
      change (str_join ?s (x :: x' :: ?l)) with (x ++ s ++ str_join s (x' :: l)).
      by rewrite IH.
Qed.

(** X2. [join_command] does not keep the boundaries of an argument that
    contains a space: the command of the entry splits back into one token
    more than the record had. *)
Theorem join_command_embedded_space (pre post : list pystr) (a b : pystr) :
  forallb plain_word (pre ++ a :: b :: post) = true ->
  join_command (pre ++ (a ++ " "%char :: b) :: post)
  = join_command (pre ++ a :: b :: post) /\
  Shlex.split (join_command (pre ++ (a ++ " "%char :: b) :: post))
  = Ok (pre ++ a :: b :: post).
Proof.
  intros H. rewrite join_command_glue. split; [done|]. by apply shlex_split_join.
Qed.

(** ** More about [merge] *)

Lemma traverse_app {A B} (f : A -> result B) l1 l2 :
  traverse f (l1 ++ l2) =
  (x ← traverse f l1; y ← traverse f l2; Ok (x ++ y)).
Proof.
  induction l1 as [|a l1 IH]; cbn [app traverse].
  - cbn. by destruct (traverse f l2).
  - destruct (f a) as [b|]; [|done]. cbn. rewrite IH.
    destruct (traverse f l1); [|done]. cbn. by destruct (traverse f l2).
Qed.

Lemma traverse_first_error {A B} (f : A -> result B) l1 x l2 err :
  forallb (fun y => is_ok (f y)) l1 = true -> f x = Raise err ->
  traverse f (l1 ++ x :: l2) = Raise err.
Proof.
  intros H1 Hx. rewrite traverse_app.
  destruct (traverse_ok f l1 H1) as [ys ->]. cbn. by rewrite Hx.
Qed.

Lemma merge_from_first_error fs state l1 e l2 err :
  forallb (entry_ok fs) l1 = true -> entry_key fs e = Raise err ->
  merge_from fs state (l1 ++ e :: l2) = Raise err.
Proof.
  intros H1 He. rewrite merge_from_select.
  by rewrite (traverse_first_error _ _ _ _ err H1 He).
Qed.

(** X3. [merge] has no guard around [shlex.split]: the first entry whose
    file exists and whose command does not split (an open quote, a final
    backslash) makes the whole merge raise that [ValueError], whatever
    comes after it. *)
Theorem merge_unsplittable_command (fs : filesystem)
    (old new l1 l2 : list (gmap string pyval)) (e : gmap string pyval)
    (f c : pystr) (err : exn) :
  old ++ new = l1 ++ e :: l2 ->
  forallb (entry_ok fs) l1 = true ->
  e !! "file" = Some (PStr f) -> fs_exists fs f = true ->
  e !! "command" = Some (PStr c) -> Shlex.split c = Raise err ->
  merge fs old new = Raise err.
Proof.
  intros Hl H1 Hf Hex Hc Hs. unfold merge. rewrite Hl.
  apply merge_from_first_error; [done|].
  unfold entry_key, getitem. rewrite Hf. cbn. rewrite Hex.
  unfold hash_cdb, getitem. rewrite Hc. cbn. by rewrite Hs.
Qed.

(** X4. The keys [duplicate] reads, in the order it reads them: a missing
    ['file'] raises first; ['command'] and ['directory'] are read only when
    the file exists, so an entry without them is dropped silently when its
    file is gone and raises [KeyError] when the file is there. *)
Theorem duplicate_missing_keys (fs : filesystem) (state : gset pystr)
    (e : gmap string pyval) :
  (e !! "file" = None -> duplicate fs state e = Raise (KeyError "file")) /\
  (forall f, e !! "file" = Some (PStr f) -> fs_exists fs f = false ->
     duplicate fs state e = Ok (state, true)) /\
  (forall f, e !! "file" = Some (PStr f) -> fs_exists fs f = true ->
     e !! "command" = None -> duplicate fs state e = Raise (KeyError "command")) /\
  (forall f c tokens,
     e !! "file" = Some (PStr f) -> fs_exists fs f = true ->
     e !! "command" = Some (PStr c) -> Shlex.split c = Ok tokens ->
     e !! "directory" = None -> duplicate fs state e = Raise (KeyError "directory")).
Proof.
  unfold duplicate, hash_cdb, getitem. repeat split.
  - by intros ->.
  - intros f -> Hex. cbn. by rewrite Hex.
  - intros f -> Hex ->. cbn. by rewrite Hex.
  - intros f c tokens Hf Hex -> Hs ->. rewrite Hf. cbn. rewrite Hex. cbn.
    by rewrite Hs.
Qed.

Lemma key_of_hash fs e h : key_of fs e = Some h -> hash_cdb e = Ok h.
Proof. intros (f & _ & _ & H)%key_of_Some. done. Qed.

Lemma traverse_hash_keys fs l :
  Forall (fun e => is_Some (key_of fs e)) l ->
  traverse hash_cdb l = Ok (omap (key_of fs) l).
Proof.
  induction 1 as [|e l [h Hh] _ IH]; [done|].
  cbn. rewrite (key_of_hash _ _ _ Hh), IH, Hh. reflexivity.
Qed.

(** X5. What [merge] returns is a sublist of [old + new]: no entry is
    made up, changed or moved; and the entries it returns have pairwise
    different keys. *)
Theorem merge_sublist_distinct (fs : filesystem)
    (old new out : list (gmap string pyval)) :
  merge fs old new = Ok out ->
  sublist out (old ++ new) /\
  exists keys, traverse hash_cdb out = Ok keys /\ NoDup keys.
Proof.
  intros [_ ->]%merge_from_ok_inv. split; [apply select_sublist|].
  exists (omap (key_of fs) (select (key_of fs) ∅ (old ++ new))).
  split; [|apply select_keys_NoDup].
  apply traverse_hash_keys, Forall_forall. intros e He%list_elem_of_In.
  apply select_elem in He as [_ (h & -> & _)]. eauto.
Qed.

Lemma clean_database_keys fs D keys :
  Forall (fun e => exists f, e !! "file" = Some (PStr f) /\ fs_exists fs f = true) D ->
  traverse hash_cdb D = Ok keys ->
  omap (key_of fs) D = keys /\ Forall (fun e => is_Some (key_of fs e)) D /\
  forallb (entry_ok fs) D = true.
Proof.
  intros HD. revert keys. induction HD as [|e D (f & Hf & Hex) _ IH]; intros keys.
  - intros [= <-]. repeat split; constructor.
  - cbn. destruct (hash_cdb e) as [h|] eqn:Hh; [|discriminate]. cbn.
    destruct (traverse hash_cdb D) as [ks|]; [|discriminate]. cbn.
    intros [= <-]. destruct (IH ks eq_refl) as (Hk & Hs & Hok).
    assert (key_of fs e = Some h) as Hkey by (apply key_of_Some; eauto).
    rewrite Hkey, Hk. repeat split; [by constructor|].
    unfold entry_ok at 1. unfold key_of in Hkey.
    destruct (entry_key fs e); [|discriminate]. done.
Qed.

(** X6. A database whose files all exist and whose keys are pairwise
    different comes out of [merge] as it went in: alone, merged into
    nothing, or merged with itself. *)
Theorem merge_clean_database (fs : filesystem) (D : list (gmap string pyval))
    (keys : list pystr) :
  Forall (fun e => exists f, e !! "file" = Some (PStr f) /\ fs_exists fs f = true) D ->
  traverse hash_cdb D = Ok keys -> NoDup keys ->
  merge fs D [] = Ok D /\ merge fs [] D = Ok D /\ merge fs D D = Ok D.
Proof.
  intros HD Hkeys Hnd.
  destruct (clean_database_keys fs D keys HD Hkeys) as (Hk & Hs & Hok).
  assert (select (key_of fs) ∅ D = D) as Hsel.
  { apply select_all; [done|by rewrite Hk|set_solver]. }
  unfold merge. rewrite app_nil_r. cbn [app].
  rewrite !merge_from_ok by (rewrite ?forallb_app, ?Hok; done).
  rewrite select_app, Hsel. repeat split; [done..|].
  rewrite select_none; [by rewrite app_nil_r|].
  intros h Hh. unfold seen. set_solver.
Qed.

(** X7. Merging in two steps is merging once: [merge(merge(A, B), C)] is
    [merge(A, B + C)], also in what is raised. *)
Theorem merge_incremental (fs : filesystem) (A B C : list (gmap string pyval)) :
  (merge fs A B ≫= fun M => merge fs M C) = merge fs A (B ++ C).
Proof.
  unfold merge. rewrite (app_assoc A B C).
  destruct (merge_from fs ∅ (A ++ B)) as [M|err] eqn:HM.
  - apply merge_from_ok_inv in HM as [Hok ->]. cbn.
    set (key := key_of fs). set (M := select key ∅ (A ++ B)).
    assert (forallb (entry_ok fs) M = true) as HokM.
    { apply forallb_forall. intros e He.
      apply select_elem in He as [He _]. by eapply forallb_In. }
    rewrite !merge_from_select.
    rewrite (traverse_app _ M C), (traverse_app _ (A ++ B) C).
    destruct (traverse_ok (entry_key fs) _ Hok) as [ys ->].
    destruct (traverse_ok (entry_key fs) _ HokM) as [zs ->]. cbn.
    destruct (traverse (entry_key fs) C); [|done]. cbn. f_equal. fold key.
    rewrite (select_app key ∅ M C), (select_app key ∅ (A ++ B) C). fold M. f_equal.
    + apply select_all.
      * apply Forall_forall. intros e He%list_elem_of_In.
        apply select_elem in He as [_ (h & -> & _)]. eauto.
      * apply select_keys_NoDup.
      * set_solver.
    + f_equal. apply seen_select.
  - cbn. rewrite merge_from_select in HM.
    rewrite merge_from_select, (traverse_app _ (A ++ B) C).
    destruct (traverse (entry_key fs) (A ++ B)); [discriminate|]. cbn in *. done.
Qed.

(** ** The key determines the entry *)

Lemma mem_rev c s : mem c (rev s) = mem c s.
Proof.
  induction s as [|a s IH]; [done|]. cbn [rev]. rewrite mem_app, IH.
  cbn. rewrite orb_false_r. apply orb_comm.
Qed.

Lemma app_sep_inj c u v x y :
  mem c u = false -> mem c v = false ->
  u ++ c :: x = v ++ c :: y -> u = v /\ x = y.
Proof.
  revert v. induction u as [|a u IH]; intros [|b v] Hu Hv; cbn in *.
  - by intros [= <-].
  - intros [= <- _]. by rewrite ascii_eqb_refl in Hv.
  - intros [= -> _]. by rewrite ascii_eqb_refl in Hu.
  - apply orb_false_iff in Hu as [_ Hu]. apply orb_false_iff in Hv as [_ Hv].
    intros [= <- H]. destruct (IH v Hu Hv H) as [-> ->]. done.
Qed.

(** X8. Entries with the same key are the same compilation: when no file or
    directory name contains [<], equal keys force equal files, equal
    directories and equal commands after the first token (token by token,
    for tokens free of whitespace, quotes and backslashes). *)
Theorem hash_cdb_injective (e1 e2 : gmap string pyval)
    (f1 f2 d1 d2 c1 c2 : pystr) (tokens1 tokens2 : list pystr) :
  e1 !! "file" = Some (PStr f1) -> e2 !! "file" = Some (PStr f2) ->
  e1 !! "directory" = Some (PStr d1) -> e2 !! "directory" = Some (PStr d2) ->
  e1 !! "command" = Some (PStr c1) -> e2 !! "command" = Some (PStr c2) ->
  Shlex.split c1 = Ok tokens1 -> Shlex.split c2 = Ok tokens2 ->
  mem "<" (f1 ++ d1 ++ f2 ++ d2) = false ->
  hash_cdb e1 = hash_cdb e2 ->
  f1 = f2 /\ d1 = d2 /\
  str_join (str " ") (tail tokens1) = str_join (str " ") (tail tokens2) /\
  (forallb plain_word (tail tokens1 ++ tail tokens2) = true ->
   tail tokens1 = tail tokens2).
Proof.
  intros Hf1 Hf2 Hd1 Hd2 Hc1 Hc2 Ht1 Ht2 Hm.
  rewrite (hash_cdb_fields e1 f1 d1 c1 tokens1), (hash_cdb_fields e2 f2 d2 c2 tokens2)
    by done.
  rewrite !mem_app in Hm.
  repeat (apply orb_false_iff in Hm as [? Hm]).
  intros [= Heq]. cbn [str list_ascii_of_string app] in Heq.
  apply app_sep_inj in Heq as [Hf Heq]; [|by rewrite mem_rev..].
  injection Heq as Heq. apply app_sep_inj in Heq as [Hd Heq]; [|by rewrite mem_rev..].
  injection Heq as Heq.
  assert (f1 = f2) as -> by (by rewrite <- (rev_involutive f1), Hf, rev_involutive).
  assert (d1 = d2) as -> by (by rewrite <- (rev_involutive d1), Hd, rev_involutive).
  repeat split; [done|].
  rewrite forallb_app. intros [Hp1 Hp2]%andb_true_iff.
  apply shlex_split_join in Hp1, Hp2. unfold join_command in *.
  cbn [str list_ascii_of_string] in Hp1, Hp2.
  rewrite Heq in Hp1. congruence.
Qed.

(** ** From records to keys *)

Lemma omap_cons {A B} (f : A -> option B) x l :
  omap f (x :: l) = match f x with Some y => y :: omap f l | None => omap f l end.
Proof. reflexivity. Qed.

Lemma chain_Compile cmdparse fs record command directory operands :
  record !! "command" = Some (PList command) ->
  record !! "directory" = Some (PStr directory) ->
  general_filter record = Ok true ->
  cmdparse command = Ok {| action := Compile; files := operands |} ->
  chain cmdparse fs [record]
  = Ok (map (entry_of (fs_cwd fs) directory command) operands).
Proof.
  intros Hc Hd Hg Hp. cbn [chain]. rewrite Hg. cbn.
  rewrite (format_record_Compile _ _ _ _ _ _ Hc Hd Hp). cbn.
  by rewrite app_nil_r.
Qed.

Lemma entry_of_hash cwd d executable args operand :
  forallb plain_word (executable :: args) = true ->
  hash_cdb (entry_of cwd d (executable :: args) operand)
  = Ok (rev (PosixPath.abspath cwd operand) ++ str "<>" ++ rev d ++ str "<>"
        ++ join_command args).
Proof.
  intros H.
  apply (hash_cdb_fields (entry_of cwd d (executable :: args) operand)
           (PosixPath.abspath cwd operand) d
           (join_command (executable :: args)) (executable :: args));
    [reflexivity..|by apply shlex_split_join].
Qed.

Lemma entry_of_key fs d executable args operand :
  forallb plain_word (executable :: args) = true ->
  entry_key fs (entry_of (fs_cwd fs) d (executable :: args) operand)
  = Ok (if fs_exists fs (PosixPath.abspath (fs_cwd fs) operand)
        then Some (rev (PosixPath.abspath (fs_cwd fs) operand) ++ str "<>"
                   ++ rev d ++ str "<>" ++ join_command args)
        else None).
Proof.
  intros H. unfold entry_key.
  change (getitem (entry_of (fs_cwd fs) d (executable :: args) operand) "file" ≫= as_str)
    with (Ok (A := pystr) (PosixPath.abspath (fs_cwd fs) operand)).
  cbn [mbind result_bind].
  destruct (fs_exists fs _); [|done]. by rewrite entry_of_hash.
Qed.

(** X9. Two records that the filter lets through, with the same directory,
    the same classification and the same arguments after the executable
    (all free of whitespace, quotes and backslashes), give entries with the
    same keys; merged after the entries of the first one, the entries of
    the second one add nothing. *)
Theorem alias_records_collapse (cmdparse : list pystr -> result atoms)
    (fs : filesystem) (r1 r2 : gmap string pyval) (d exe1 exe2 : pystr)
    (args operands : list pystr) :
  r1 !! "command" = Some (PList (exe1 :: args)) ->
  r2 !! "command" = Some (PList (exe2 :: args)) ->
  r1 !! "directory" = Some (PStr d) -> r2 !! "directory" = Some (PStr d) ->
  general_filter r1 = Ok true -> general_filter r2 = Ok true ->
  cmdparse (exe1 :: args) = Ok {| action := Compile; files := operands |} ->
  cmdparse (exe2 :: args) = Ok {| action := Compile; files := operands |} ->
  forallb plain_word (exe1 :: exe2 :: args) = true ->
  exists es1 es2 keys,
    chain cmdparse fs [r1] = Ok es1 /\ chain cmdparse fs [r2] = Ok es2 /\
    traverse hash_cdb es1 = Ok keys /\ traverse hash_cdb es2 = Ok keys /\
    merge fs es1 es2 = merge fs es1 [].
Proof.
  intros Hc1 Hc2 Hd1 Hd2 Hg1 Hg2 Hp1 Hp2 Hplain.
  cbn [forallb] in Hplain.
  apply andb_true_iff in Hplain as [Hx1 [Hx2 Hargs]%andb_true_iff].
  assert (forallb plain_word (exe1 :: args) = true) as Hw1 by (cbn; by rewrite Hx1).
  assert (forallb plain_word (exe2 :: args) = true) as Hw2 by (cbn; by rewrite Hx2).
  pose proof (chain_Compile cmdparse fs r1 _ _ _ Hc1 Hd1 Hg1 Hp1) as E1.
  pose proof (chain_Compile cmdparse fs r2 _ _ _ Hc2 Hd2 Hg2 Hp2) as E2.
  set (es1 := map (entry_of (fs_cwd fs) d (exe1 :: args)) operands).
  set (es2 := map (entry_of (fs_cwd fs) d (exe2 :: args)) operands).
  set (key := fun operand =>
         rev (PosixPath.abspath (fs_cwd fs) operand) ++ str "<>" ++ rev d
         ++ str "<>" ++ join_command args).
  assert (forall exe ops, forallb plain_word (exe :: args) = true ->
            traverse hash_cdb (map (entry_of (fs_cwd fs) d (exe :: args)) ops)
            = Ok (map key ops)) as Hkeys.
  { intros exe ops Hw. induction ops as [|op ops IH]; [done|].
    cbn [map traverse]. rewrite entry_of_hash by done. cbn. by rewrite IH. }
  assert (forall exe, forallb plain_word (exe :: args) = true ->
            forallb (entry_ok fs) (map (entry_of (fs_cwd fs) d (exe :: args)) operands)
            = true) as Hoks.
  { intros exe Hw. apply forallb_forall. intros e (op & <- & _)%in_map_iff.
    unfold entry_ok. by rewrite entry_of_key. }
  assert (forall exe ops, forallb plain_word (exe :: args) = true ->
            omap (key_of fs) (map (entry_of (fs_cwd fs) d (exe :: args)) ops)
            = omap (fun op => if fs_exists fs (PosixPath.abspath (fs_cwd fs) op)
                              then Some (key op) else None) ops) as Homap.
  { intros exe ops Hw. induction ops as [|op ops IH]; [done|].
    cbn [map]. rewrite !omap_cons, IH.
    unfold key_of. by rewrite entry_of_key. }
  exists es1, es2, (map key operands).
  split; [exact E1|]. split; [exact E2|].
  split; [by apply Hkeys|]. split; [by apply Hkeys|].
  unfold merge. rewrite app_nil_r.
  rewrite !merge_from_ok by (rewrite ?forallb_app; unfold es1, es2;
                             rewrite ?Hoks by done; done).
  rewrite select_app, (select_none _ (seen (key_of fs) ∅ es1) es2);
    [by rewrite app_nil_r|].
  intros h Hh. unfold seen. rewrite elem_of_union, elem_of_list_to_set. left.
  unfold es1, es2 in *. rewrite Homap in * by done. done.
Qed.

(** ** More about [parse] and [collect] *)

Lemma getidx_app_l {A} (l l' : list A) i :
  i < length l -> getidx (l ++ l') i = getidx l i.
Proof. intros H. unfold getidx. by rewrite lookup_app_l. Qed.

Lemma parse_unreadable fs filename :
  fs_read fs filename = None -> parse fs filename = Raise (IOError filename).
Proof. intros H. unfold parse. by rewrite H. Qed.

Lemma parse_too_short fs filename content :
  fs_read fs filename = Some content ->
  length (str_split RS content) < 5 -> parse fs filename = Raise IndexError.
Proof.
  intros H Hlen. unfold parse. rewrite H. cbv zeta.
  destruct (str_split RS content) as [|r0 [|r1 [|r2 [|r3 [|r4 rs]]]]];
    cbn in *; try reflexivity; lia.
Qed.

Lemma parse_no_tokens fs filename pid ppid function directory z :
  forallb (fun t => negb (mem RS t)) [pid; ppid; function; directory; z] = true ->
  mem US z = false ->
  fs_read fs filename = Some (trace_content pid ppid function directory [] z) ->
  parse fs filename = Ok (process_record pid ppid function directory []).
Proof.
  intros Hrs Hus H. unfold parse. rewrite H. unfold trace_content.
  cbn [forallb map concat app] in *.
  repeat (apply andb_true_iff in Hrs as [?%negb_true_iff Hrs]).
  rewrite !str_split_app by done. rewrite (str_split_no_sep RS z) by done.
  cbn. by rewrite (str_split_no_sep US z).
Qed.

Lemma parse_ok_fields fs filename content :
  fs_read fs filename = Some content ->
  is_ok (parse fs filename) = true <-> 5 <= length (str_split RS content).
Proof.
  intros Hr. unfold parse. rewrite Hr. cbv zeta.
  destruct (str_split RS content) as [|r0 [|r1 [|r2 [|r3 [|r4 rs]]]]]; cbn;
    split; intros; try done; lia.
Qed.

(** X10. [parse] succeeds on a readable file exactly when the content has at
    least four record separators, and it looks at the first five fields
    only: a file with the same content followed by a separator and anything
    else parses to the same record. *)
Theorem parse_first_five_fields (fs : filesystem)
    (filename filename' content extra : pystr) :
  fs_read fs filename = Some content ->
  fs_read fs filename' = Some (content ++ RS :: extra) ->
  (is_ok (parse fs filename) = true <->
   4 <= length (filter (fun c => c = RS) content)) /\
  (is_ok (parse fs filename) = true -> parse fs filename' = parse fs filename).
Proof.
  intros Hr Hr'. split.
  - rewrite (parse_ok_fields _ _ _ Hr), length_str_split. lia.
  - intros Hok%(parse_ok_fields _ _ _ Hr). unfold parse. rewrite Hr, Hr'. cbv zeta.
    rewrite str_split_sep_app. by rewrite !getidx_app_l by lia.
Qed.

Lemma collect_parse_error cmdparse fs filtering destination l1 filename l2 err :
  fs_glob fs (PosixPath.join destination (str "cmd.*")) = l1 ++ filename :: l2 ->
  forallb (fun f => is_ok (parse fs f)) l1 = true ->
  parse fs filename = Raise err ->
  collect cmdparse fs filtering destination = Raise err.
Proof.
  intros Hg H1 Hf. unfold collect. rewrite Hg.
  by rewrite (traverse_first_error _ _ _ _ err H1 Hf).
Qed.

(** X11. [collect] does not skip a trace file it cannot parse: the first file
    of the listing that cannot be opened, or that has fewer than five
    fields, makes [collect] raise, with or without the filter, whatever the
    other files hold. *)
Theorem collect_aborts_on_bad_file (cmdparse : list pystr -> result atoms)
    (fs : filesystem) (filtering : bool) (destination : pystr)
    (l1 l2 : list pystr) (filename : pystr) :
  fs_glob fs (PosixPath.join destination (str "cmd.*")) = l1 ++ filename :: l2 ->
  forallb (fun f => is_ok (parse fs f)) l1 = true ->
  (fs_read fs filename = None ->
   collect cmdparse fs filtering destination = Raise (IOError filename)) /\
  (forall content,
     fs_read fs filename = Some content ->
     length (filter (fun c => c = RS) content) < 4 ->
     collect cmdparse fs filtering destination = Raise IndexError).
Proof.
  intros Hg H1. split.
  - intros Hr. eapply collect_parse_error; [done..|].
    by apply parse_unreadable.
  - intros content Hr Hlen. eapply collect_parse_error; [done..|].
    eapply parse_too_short; [done|]. rewrite length_str_split. lia.
Qed.

(** ** More about the filter and [format_record] *)

(** X12. The filter reads [command[0]] of every record: a record with an
    empty command (a trace whose command field holds no unit separator)
    makes it raise [IndexError], and the filtered [collect] raises with it,
    while the unfiltered [collect] returns the record. *)
Theorem empty_command_raises (cmdparse : list pystr -> result atoms)
    (fs : filesystem) (destination filename : pystr) (others : list pystr)
    (pid ppid function directory z : pystr) :
  forallb (fun t => negb (mem RS t)) [pid; ppid; function; directory; z] = true ->
  mem US z = false ->
  fs_read fs filename = Some (trace_content pid ppid function directory [] z) ->
  fs_glob fs (PosixPath.join destination (str "cmd.*")) = filename :: others ->
  forallb (fun f => is_ok (parse fs f)) others = true ->
  parse fs filename = Ok (process_record pid ppid function directory []) /\
  general_filter (process_record pid ppid function directory []) = Raise IndexError /\
  collect cmdparse fs true destination = Raise IndexError /\
  is_ok (collect cmdparse fs false destination) = true.
Proof.
  intros Hrs Hus Hr Hg Hothers.
  assert (parse fs filename = Ok (process_record pid ppid function directory []))
    as Hp.
  { by apply (parse_no_tokens fs filename pid ppid function directory z). }
  split; [done|]. split; [reflexivity|].
  unfold collect. rewrite Hg. cbn [traverse]. rewrite Hp. cbn.
  destruct (traverse_ok (parse fs) others Hothers) as [rs ->]. cbn.
  split; reflexivity.
Qed.

Lemma format_record_shape cmdparse fs record es :
  format_record cmdparse fs record = Ok es ->
  Forall (formatted_entry (fs_cwd fs) [record]) es.
Proof.
  unfold format_record, getitem.
  destruct (record !! "command") as [[s|command]|] eqn:Hc; try discriminate.
  cbn [mbind result_bind as_list].
  destruct (cmdparse command) as [a|]; [|discriminate]. cbn [mbind result_bind].
  destruct (is_compile (action a)); [|intros [= <-]; constructor].
  destruct (record !! "directory") as [directory|] eqn:Hd.
  - cbn [mbind result_bind]. intros H.
    eapply traverse_Forall; [|exact H]. cbn. intros operand e [= <-].
    exists record, command, directory, operand. repeat split; [by left|done..].
  - destruct (files a) as [|op ops]; [intros [= <-]; constructor|discriminate].
Qed.

Lemma formatted_entry_mono cwd l l' e :
  (forall r, In r l -> In r l') -> formatted_entry cwd l e -> formatted_entry cwd l' e.
Proof.
  intros Hl (r & c & d & op & Hr & ?). exists r, c, d, op. split; [auto|done].
Qed.

Lemma chain_formatted cmdparse fs records es :
  chain cmdparse fs records = Ok es ->
  Forall (formatted_entry (fs_cwd fs) records) es.
Proof.
  revert es. induction records as [|r records IH]; intros es; cbn [chain].
  - intros [= <-]. constructor.
  - destruct (general_filter r) as [keep|]; [|discriminate]. cbn.
    destruct (if keep then _ else _) as [es1|] eqn:E1; [|discriminate]. cbn.
    destruct (chain cmdparse fs records) as [es2|]; [|discriminate]. cbn.
    intros [= <-]. apply Forall_app. split.
    + destruct keep; [|injection E1 as <-; constructor].
      eapply Forall_impl; [exact (format_record_shape _ _ _ _ E1)|].
      intros e. apply formatted_entry_mono. intros ? [->|[]]. by left.
    + eapply Forall_impl; [exact (IH _ eq_refl)|].
      intros e. apply formatted_entry_mono. intros ? ?. by right.
Qed.

(** X13. Every entry the filtered pipeline makes has exactly the keys
    ['directory'], ['command'] and ['file']: the directory of one of the
    records, the joined command of that record, and a file name made
    absolute by [abspath].  So [duplicate] finds its ['file'], and the file
    is an absolute path when the working directory is one. *)
Theorem chain_entries (cmdparse : list pystr -> result atoms) (fs : filesystem)
    (records es : list (gmap string pyval)) :
  chain cmdparse fs records = Ok es ->
  Forall (fun e =>
    formatted_entry (fs_cwd fs) records e /\
    dom e = {["directory"; "command"; "file"]} /\
    exists f, e !! "file" = Some (PStr f) /\
              (PosixPath.isabs (fs_cwd fs) = true -> PosixPath.isabs f = true)) es.
Proof.
  intros H. eapply Forall_impl; [exact (chain_formatted _ _ _ _ H)|]. cbn.
  intros e He. split; [done|].
  destruct He as (r & c & d & op & _ & _ & _ & ->). split.
  - rewrite !dom_insert_L, dom_empty_L. set_solver.
  - eexists. split; [reflexivity|]. apply abspath_isabs.
Qed.

(** X14. The filtered pipeline treats the records one by one and in order:
    the entries of [a + b] are the entries of [a] followed by the entries of
    [b], and the first record that raises decides what is raised. *)
Theorem chain_concat (cmdparse : list pystr -> result atoms) (fs : filesystem)
    (a b : list (gmap string pyval)) :
  chain cmdparse fs (a ++ b) =
  (x ← chain cmdparse fs a; y ← chain cmdparse fs b; Ok (x ++ y)).
Proof.
  induction a as [|r a IH]; cbn [app chain].
  - cbn. by destruct (chain cmdparse fs b).
  - destruct (general_filter r) as [keep|]; [|done]. cbn.
    destruct (if keep then _ else _) as [es|]; [|done]. cbn.
    rewrite IH. destruct (chain cmdparse fs a) as [x|]; [|done]. cbn.
    destruct (chain cmdparse fs b) as [y|]; [|done]. cbn.
    by rewrite app_assoc.
Qed.

(** ** The recognizer, once more *)

Lemma endswith_extend c dir p :
  endswith c p = true -> endswith c (dir ++ "/"%char :: p) = true.
Proof.
  intros H. destruct p as [|x p]; [done|].
  change (dir ++ "/"%char :: x :: p) with (dir ++ ["/"%char] ++ x :: p).
  by rewrite app_assoc, endswith_app.
Qed.

Lemma dir_prefix_extend dir p : dir_prefix p -> dir_prefix (dir ++ "/"%char :: p).
Proof.
  intros [->|H]; right; [by rewrite endswith_snoc|by apply endswith_extend].
Qed.

Lemma target_prefix_extend dir p :
  target_prefix p -> target_prefix (dir ++ "/"%char :: p).
Proof.
  intros [->|[H|H]].
  - right. left. by rewrite endswith_snoc.
  - right. left. by apply endswith_extend.
  - right. right. by apply endswith_extend.
Qed.

Lemma compiler_name_extend sepok dir name :
  compiler_name sepok name -> compiler_name sepok (dir ++ "/"%char :: name).
Proof.
  intros H. destruct H as [p core Hp Hc|p core v Hp Hc Hv|p core v Hp Hc Hv|p core Hp Hc].
  - replace (dir ++ "/"%char :: p ++ core) with ((dir ++ "/"%char :: p) ++ core)
      by by rewrite <- app_assoc.
    apply name_cc; [by apply dir_prefix_extend|done].
  - replace (dir ++ "/"%char :: p ++ core ++ v)
      with ((dir ++ "/"%char :: p) ++ core ++ v) by by rewrite <- app_assoc.
    apply name_gcc; [by apply target_prefix_extend|done..].
  - replace (dir ++ "/"%char :: p ++ core ++ v)
      with ((dir ++ "/"%char :: p) ++ core ++ v) by by rewrite <- app_assoc.
    apply name_clang; [by apply target_prefix_extend|done..].
  - replace (dir ++ "/"%char :: p ++ core) with ((dir ++ "/"%char :: p) ++ core)
      by by rewrite <- app_assoc.
    apply name_llvm; [by apply dir_prefix_extend|done].
Qed.

(** X15. An executable [known_compiler] accepts is accepted under any
    directory: putting [dir/] in front of it, for any string [dir], and
    changing the other arguments, does not change the answer [True]. *)
Theorem known_compiler_any_directory (dir executable : pystr)
    (args args' : list pystr) :
  known_compiler (executable :: args) = Ok true ->
  known_compiler ((dir ++ "/"%char :: executable) :: args') = Ok true.
Proof.
  rewrite !known_compiler_accepted. intros [H|(name & -> & H)].
  - left. by apply compiler_name_extend.
  - right. exists (dir ++ "/"%char :: name). split; [by rewrite <- app_assoc|].
    by apply compiler_name_extend.
Qed.

Lemma cancel_parameter_args command :
  cancel_parameter command = true <->
  exists arg, In arg (tail command) /\
              (arg = str "-cc1" \/ arg = str "-cc1" ++ [Re.newline]).
Proof.
  unfold cancel_parameter. cbn [existsb]. rewrite orb_false_r, existsb_exists.
  split; intros (arg & Hin & H); exists arg; (split; [done|]).
  - apply dollar_match_lang in H as [H|(s' & -> & H)];
      apply lang_lit in H; subst; auto.
  - apply dollar_match_lang. destruct H as [-> | ->].
    + left. by apply lang_lit.
    + right. exists (str "-cc1"). split; [done|]. by apply lang_lit.
Qed.

(** X16. The filter yields a record exactly when its executable is an
    accepted name and none of the later arguments is [-cc1] (or [-cc1]
    followed by a newline, which [$] lets through): nothing else cancels a
    compiler call. *)
Theorem general_filter_yields (record : gmap string pyval)
    (executable : pystr) (args : list pystr) :
  record !! "command" = Some (PList (executable :: args)) ->
  general_filter record = Ok true <->
  accepted_name executable /\
  forall arg, In arg args ->
    arg <> str "-cc1" /\ arg <> str "-cc1" ++ [Re.newline].
Proof.
  intros Hc. unfold general_filter, getitem. rewrite Hc.
  cbn [mbind result_bind as_list].
  rewrite <- (known_compiler_accepted executable args).
  destruct (known_compiler (executable :: args)) as [known|] eqn:Hk; cbn [mbind result_bind].
  - destruct (cancel_parameter (executable :: args)) eqn:Hcancel.
    + apply cancel_parameter_args in Hcancel as (arg & Hin & Harg).
      rewrite andb_false_r. split; [discriminate|].
      intros [_ H]. destruct (H arg Hin). tauto.
    + rewrite andb_true_r. split.
      * intros [= ->]. split; [done|]. intros arg Hin.
        split; intros ->;
          (assert (cancel_parameter (executable :: args) = true) as Habs
             by (apply cancel_parameter_args; eauto)); congruence.
      * by intros [-> _].
  - split; [discriminate|]. by intros [? _].
Qed.

(** ** The environment of the build *)

(** X17. [run_build] hands the build the environment of the caller with two
    or three variables set: [BEAR_OUTPUT] is the trace directory, the
    preload variable of the platform is the [libear] library, replacing any
    value it had, and on Darwin the flat namespace is forced; every other
    variable is passed on unchanged. *)
Theorem build_environment_variables
    (resource_filename : string -> string -> pystr) (darwin : bool)
    (environ : gmap string pystr) (destination : pystr) :
  let env := build_environment resource_filename darwin environ destination in
  let preload := if darwin then "DYLD_INSERT_LIBRARIES" else "LD_PRELOAD" in
  let library := if darwin then "libear.dylib" else "libear.so" in
  env !! "BEAR_OUTPUT" = Some destination /\
  env !! preload = Some (resource_filename "analyzer" library) /\
  (darwin = true -> env !! "DYLD_FORCE_FLAT_NAMESPACE" = Some (str "1")) /\
  (forall key,
     key <> "BEAR_OUTPUT" -> key <> preload ->
     (darwin = true -> key <> "DYLD_FORCE_FLAT_NAMESPACE") ->
     env !! key = environ !! key).
Proof.
  destruct darwin; cbn -[insert lookup]; repeat split.
  - by simplify_map_eq.
  - by simplify_map_eq.
  - by simplify_map_eq.
  - intros key H1 H2 H3. specialize (H3 eq_refl). by simplify_map_eq.
  - by simplify_map_eq.
  - by simplify_map_eq.
  - discriminate.
  - intros key H1 H2 _. by simplify_map_eq.
Qed.

(** ** [main], run again *)









Lemma main_Ok_inv cmdparse subprocess_call tmpdir args code fs r :
  subprocess_call (build args) tmpdir = Ok (code, fs) ->
  main cmdparse subprocess_call tmpdir args = Ok r ->
  exists currents new,
    (if from_option id false (append args)
     then load_current_cdb fs (cdb args) else Ok []) = Ok currents /\
    collect cmdparse fs (negb (from_option id false (filtering args))) tmpdir = Ok new /\
    merge fs currents new = Ok r.2 /\
    fs_writable fs (cdb args) = true /\ r.1 = code.
Proof.
  intros Hsc. unfold main, run_build. rewrite Hsc. cbn [mbind result_bind].
  destruct (if from_option id false (append args) then _ else _) as [currents|];
    [|discriminate]. cbn [mbind result_bind].
  destruct (collect _ _ _ _) as [new|]; [|discriminate]. cbn [mbind result_bind].
  destruct (merge fs currents new) as [commands|] eqn:Hm; [|discriminate].
  cbn [mbind result_bind].
  destruct (fs_writable fs (cdb args)) eqn:Hw; [|discriminate].
  intros [= <-]. by exists currents, new.
Qed.

(** X18. The database [main] writes holds only entries whose file exists
    after the build, no two of them with the same key, and, when the filter
    is on and nothing is appended, only entries made from the trace files
    of this build. *)
Theorem main_database (cmdparse : list pystr -> result atoms)
    (subprocess_call : list pystr -> pystr -> result (Z * filesystem))
    (tmpdir : pystr) (args : arguments) (code : Z) (fs : filesystem)
    (r : Z * list (gmap string pyval)) :
  subprocess_call (build args) tmpdir = Ok (code, fs) ->
  main cmdparse subprocess_call tmpdir args = Ok r ->
  Forall (fun e => exists f, e !! "file" = Some (PStr f) /\ fs_exists fs f = true) r.2 /\
  (exists keys, traverse hash_cdb r.2 = Ok keys /\ NoDup keys) /\
  (from_option id false (append args) = false ->
   from_option id false (filtering args) = false ->
   exists records,
     traverse (parse fs) (fs_glob fs (PosixPath.join tmpdir (str "cmd.*"))) = Ok records /\
     Forall (formatted_entry (fs_cwd fs) records) r.2).
Proof.
  intros Hsc Hmain.
  destruct (main_Ok_inv _ _ _ _ _ _ _ Hsc Hmain) as
    (currents & new & Hcur & Hnew & Hm & _ & _).
  pose proof Hm as [Hok Hsel]%merge_from_ok_inv.
  assert (Forall (fun e => is_Some (key_of fs e)) r.2) as Hkeys.
  { rewrite Hsel. apply Forall_forall. intros e He%list_elem_of_In.
    apply select_elem in He as [_ (h & -> & _)]. eauto. }
  split; [|split].
  - eapply Forall_impl; [exact Hkeys|]. cbn.
    intros e [h (f & ? & ? & _)%key_of_Some]. eauto.
  - exists (omap (key_of fs) r.2). split; [by apply traverse_hash_keys|].
    rewrite Hsel. apply select_keys_NoDup.
  - intros Ha Hf. rewrite Ha in Hcur. injection Hcur as <-.
    rewrite Hf in Hnew. unfold collect in Hnew. cbn [negb] in Hnew.
    destruct (traverse (parse fs) _) as [records|]; [|discriminate].
    cbn [mbind result_bind] in Hnew. exists records. split; [done|].
    pose proof (chain_formatted _ _ _ _ Hnew) as Hshape.
    rewrite Hsel. apply Forall_forall. intros e He%list_elem_of_In.
    apply select_elem in He as [He _]. cbn [app] in He.
    rewrite Forall_forall in Hshape. apply Hshape. by apply list_elem_of_In.
Qed.


(** ** The rest of [collect] and [merge] *)

Lemma traverse_Forall2 {A B} (f : A -> result B) l ys :
  traverse f l = Ok ys <-> Forall2 (fun x y => f x = Ok y) l ys.
Proof.
  revert ys. induction l as [|x l IH]; intros ys; cbn [traverse].
  - split; [intros [= <-]; constructor|by inversion 1].
  - split.
    + destruct (f x) as [y|] eqn:Hx; [|discriminate]. cbn.
      destruct (traverse f l) as [ys'|] eqn:Hl; [|discriminate]. cbn.
      intros [= <-]. constructor; [done|]. by apply IH.
    + inversion 1 as [|? y ? ys' Hx Hl]; subst. rewrite Hx. cbn.
      apply IH in Hl. by rewrite Hl.
Qed.

(** X20. Without the filter [collect] is [parse] over the listing of the
    trace directory, one record per file and in the order of the listing;
    it returns exactly when every listed file parses. *)
Theorem collect_unfiltered_records (cmdparse : list pystr -> result atoms)
    (fs : filesystem) (destination : pystr) (records : list (gmap string pyval)) :
  collect cmdparse fs false destination = Ok records <->
  Forall2 (fun filename record => parse fs filename = Ok record)
    (fs_glob fs (PosixPath.join destination (str "cmd.*"))) records.
Proof.
  rewrite <- traverse_Forall2. unfold collect.
  destruct (traverse (parse fs) _); cbn; split; congruence.
Qed.

(** X21. The classifier is asked about the commands of the records the
    filter lets through, and about nothing else: two classifiers that agree
    on those commands give the same entries and the same exceptions. *)
Theorem chain_classifier_calls (cmdparse cmdparse' : list pystr -> result atoms)
    (fs : filesystem) (records : list (gmap string pyval)) :
  (forall record command,
     In record records -> general_filter record = Ok true ->
     record !! "command" = Some (PList command) ->
     cmdparse command = cmdparse' command) ->
  chain cmdparse fs records = chain cmdparse' fs records.
Proof.
  induction records as [|r records IH]; intros H; [done|]. cbn [chain].
  rewrite IH by (intros record command Hin; apply H; by right).
  destruct (general_filter r) as [[]|] eqn:Hg; [|done..].
  assert (format_record cmdparse fs r = format_record cmdparse' fs r) as ->; [|done].
  unfold format_record, getitem.
  destruct (r !! "command") as [[s|command]|] eqn:Hc; [done| |done].
  cbn [mbind result_bind as_list].
  by rewrite (H r command (or_introl eq_refl) Hg Hc).
Qed.

Lemma select_key_set {E} (key : E -> option pystr) (l : list E) h :
  h ∈ omap key (select key ∅ l) <-> h ∈ omap key l.
Proof. rewrite select_keys. set_solver. Qed.

(** X22. Which keys survive a merge does not depend on the order of the two
    lists: [merge(old, new)] and [merge(new, old)] return or raise together,
    and when they return, their entries have the same keys, up to order,
    and they are as many. *)
Theorem merge_order_insensitive (fs : filesystem)
    (old new out : list (gmap string pyval)) :
  merge fs old new = Ok out ->
  exists out' keys keys',
    merge fs new old = Ok out' /\
    traverse hash_cdb out = Ok keys /\ traverse hash_cdb out' = Ok keys' /\
    keys ≡ₚ keys' /\ length out = length out'.
Proof.
  intros [Hok ->]%merge_from_ok_inv.
  assert (forallb (entry_ok fs) (new ++ old) = true) as Hok'.
  { rewrite forallb_app in *. apply andb_true_iff in Hok as [-> ->]. done. }
  set (key := key_of fs).
  assert (forall l, Forall (fun e => is_Some (key e)) (select key ∅ l)) as Hsome.
  { intros l. apply Forall_forall. intros e He%list_elem_of_In.
    apply select_elem in He as [_ (h & -> & _)]. eauto. }
  assert (omap key (select key ∅ (old ++ new)) ≡ₚ omap key (select key ∅ (new ++ old)))
    as Hperm.
  { apply NoDup_Permutation; [apply select_keys_NoDup..|].
    intros h. rewrite !select_key_set, !omap_app. set_solver. }
  assert (forall l, Forall (fun e => is_Some (key e)) l -> length (omap key l) = length l)
    as Hlen.
  { induction 1 as [|e l [h Hh] _ IH]; [done|]. cbn. rewrite Hh. cbn. by rewrite IH. }
  exists (select key ∅ (new ++ old)), (omap key (select key ∅ (old ++ new))),
         (omap key (select key ∅ (new ++ old))).
  split; [unfold merge; by rewrite merge_from_ok|].
  split; [by apply traverse_hash_keys|]. split; [by apply traverse_hash_keys|].
  split; [done|].
  rewrite <- (Hlen _ (Hsome (old ++ new))), <- (Hlen _ (Hsome (new ++ old))).
  by apply Permutation_length.
Qed.

(** * The extras on the example build *)

Lemma split_join_command_example :
  Shlex.split (join_command [str "cc"; str "-c"; str "a.c"])
  = Ok [str "cc"; str "-c"; str "a.c"].
Proof. apply split_join_command. reflexivity. Defined.

Lemma join_command_embedded_space_example :
  join_command [str "cc"; str "-DX=a b"; str "a.c"]
  = join_command [str "cc"; str "-DX=a"; str "b"; str "a.c"] /\
  Shlex.split (join_command [str "cc"; str "-DX=a b"; str "a.c"])
  = Ok [str "cc"; str "-DX=a"; str "b"; str "a.c"].
Proof.
  apply (join_command_embedded_space [str "cc"] [str "a.c"] (str "-DX=a") (str "b")).
  reflexivity.
Defined.

Lemma merge_unsplittable_command_example :
  merge (example_fs "/src") [example_entry_cc]
    [example_entry_open_quote; example_entry_clang]
  = Raise (ValueError "No closing quotation").
Proof.
  apply (merge_unsplittable_command (example_fs "/src") [example_entry_cc]
           [example_entry_open_quote; example_entry_clang]
           [example_entry_cc] [example_entry_clang] example_entry_open_quote
           (str "/src/a.c") (str "cc -DX=" ++ [ascii_of_nat 34] ++ str "a -c a.c"));
    reflexivity.
Defined.

Lemma duplicate_missing_keys_example :
  duplicate (example_fs "/src") ∅ example_record_cc = Raise (KeyError "file") /\
  duplicate (example_fs "/src") ∅ (<["file" := PStr (str "/src/gone.c")]> ∅)
  = Ok (∅, true) /\
  duplicate (example_fs "/src") ∅ (<["file" := PStr (str "/src/a.c")]> ∅)
  = Raise (KeyError "command") /\
  duplicate (example_fs "/src") ∅
    (<["file" := PStr (str "/src/a.c")]> (<["command" := PStr (str "cc -c a.c")]> ∅))
  = Raise (KeyError "directory").
Proof.
  split; [|split; [|split]].
  - apply (proj1 (duplicate_missing_keys (example_fs "/src") ∅ example_record_cc)).
    reflexivity.
  - apply (proj1 (proj2 (duplicate_missing_keys (example_fs "/src") ∅ _))
             (str "/src/gone.c")); reflexivity.
  - apply (proj1 (proj2 (proj2 (duplicate_missing_keys (example_fs "/src") ∅ _)))
             (str "/src/a.c")); reflexivity.
  - apply (proj2 (proj2 (proj2 (duplicate_missing_keys (example_fs "/src") ∅ _)))
             (str "/src/a.c") (str "cc -c a.c") [str "cc"; str "-c"; str "a.c"]);
      reflexivity.
Defined.

Lemma merge_sublist_distinct_example :
  sublist [example_entry_cc] ([example_entry_gone] ++ [example_entry_cc; example_entry_clang]) /\
  exists keys, traverse hash_cdb [example_entry_cc] = Ok keys /\ NoDup keys.
Proof.
  apply (merge_sublist_distinct (example_fs "/src") [example_entry_gone]
           [example_entry_cc; example_entry_clang] [example_entry_cc]).
  reflexivity.
Defined.

Lemma merge_clean_database_example :
  merge (example_fs "/src") [example_entry_cc] [] = Ok [example_entry_cc] /\
  merge (example_fs "/src") [] [example_entry_cc] = Ok [example_entry_cc] /\
  merge (example_fs "/src") [example_entry_cc] [example_entry_cc]
  = Ok [example_entry_cc].
Proof.
  apply (merge_clean_database (example_fs "/src") [example_entry_cc]
           [str "c.a/crs/<>crs/<>-c a.c -o a.o"]).
  - repeat constructor. exists (str "/src/a.c"). split; reflexivity.
  - reflexivity.
  - repeat constructor; set_solver.
Defined.

Lemma hash_cdb_injective_example :
  str "/src/a.c" = str "/src/a.c" /\ str "/src" = str "/src" /\
  str_join (str " ") (tail [str "cc"; str "-c"; str "a.c"; str "-o"; str "a.o"])
  = str_join (str " ") (tail [str "clang"; str "-c"; str "a.c"; str "-o"; str "a.o"]) /\
  (forallb plain_word
     (tail [str "cc"; str "-c"; str "a.c"; str "-o"; str "a.o"]
      ++ tail [str "clang"; str "-c"; str "a.c"; str "-o"; str "a.o"]) = true ->
   tail [str "cc"; str "-c"; str "a.c"; str "-o"; str "a.o"]
   = tail [str "clang"; str "-c"; str "a.c"; str "-o"; str "a.o"]).
Proof.
  apply (hash_cdb_injective example_entry_cc example_entry_clang
           (str "/src/a.c") (str "/src/a.c") (str "/src") (str "/src")
           (str "cc -c a.c -o a.o") (str "clang -c a.c -o a.o"));
    reflexivity.
Defined.

Lemma alias_records_collapse_example :
  exists es1 es2 keys,
    chain example_classify (example_fs "/src") [example_record_cc] = Ok es1 /\
    chain example_classify (example_fs "/src") [example_record_clang] = Ok es2 /\
    traverse hash_cdb es1 = Ok keys /\ traverse hash_cdb es2 = Ok keys /\
    merge (example_fs "/src") es1 es2 = merge (example_fs "/src") es1 [].
Proof.
  apply (alias_records_collapse example_classify (example_fs "/src")
           example_record_cc example_record_clang (str "/src")
           (str "cc") (str "clang") [str "-c"; str "a.c"; str "-o"; str "a.o"]
           [str "a.c"]); reflexivity.
Defined.

Lemma parse_first_five_fields_example :
  (is_ok (parse (example_fs_listing []) (str "/tmp/bear-x/cmd.4711")) = true <->
   4 <= length (filter (fun c => c = RS) example_trace_cc)) /\
  (is_ok (parse (example_fs_listing []) (str "/tmp/bear-x/cmd.4711")) = true ->
   parse (example_fs_listing []) (str "/tmp/bear-x/cmd.extra")
   = parse (example_fs_listing []) (str "/tmp/bear-x/cmd.4711")).
Proof.
  apply (parse_first_five_fields (example_fs_listing [])
           (str "/tmp/bear-x/cmd.4711") (str "/tmp/bear-x/cmd.extra")
           example_trace_cc (str "more")); reflexivity.
Defined.

Lemma collect_aborts_on_bad_file_example :
  collect example_classify
    (example_fs_listing ["/tmp/bear-x/cmd.4711"; "/tmp/bear-x/cmd.short";
                         "/tmp/bear-x/cmd.extra"])
    true (str "/tmp/bear-x") = Raise IndexError /\
  collect example_classify
    (example_fs_listing ["/tmp/bear-x/cmd.4711"; "/tmp/bear-x/cmd.gone"])
    false (str "/tmp/bear-x") = Raise (IOError (str "/tmp/bear-x/cmd.gone")).
Proof.
  split.
  - apply (proj2 (collect_aborts_on_bad_file example_classify
                    (example_fs_listing ["/tmp/bear-x/cmd.4711"; "/tmp/bear-x/cmd.short";
                                         "/tmp/bear-x/cmd.extra"])
                    true (str "/tmp/bear-x") [str "/tmp/bear-x/cmd.4711"]
                    [str "/tmp/bear-x/cmd.extra"] (str "/tmp/bear-x/cmd.short")
                    eq_refl eq_refl) (field "1" ++ field "0")); [reflexivity|].
    vm_compute. lia.
  - apply (proj1 (collect_aborts_on_bad_file example_classify
                    (example_fs_listing ["/tmp/bear-x/cmd.4711"; "/tmp/bear-x/cmd.gone"])
                    false (str "/tmp/bear-x") [str "/tmp/bear-x/cmd.4711"]
                    [] (str "/tmp/bear-x/cmd.gone") eq_refl eq_refl)).
    reflexivity.
Defined.

Lemma empty_command_raises_example :
  collect example_classify
    (example_fs_listing ["/tmp/bear-x/cmd.empty"; "/tmp/bear-x/cmd.4711"])
    true (str "/tmp/bear-x") = Raise IndexError /\
  is_ok (collect example_classify
           (example_fs_listing ["/tmp/bear-x/cmd.empty"; "/tmp/bear-x/cmd.4711"])
           false (str "/tmp/bear-x")) = true.
Proof.
  destruct (empty_command_raises example_classify
              (example_fs_listing ["/tmp/bear-x/cmd.empty"; "/tmp/bear-x/cmd.4711"])
              (str "/tmp/bear-x") (str "/tmp/bear-x/cmd.empty")
              [str "/tmp/bear-x/cmd.4711"]
              (str "4715") (str "4710") (str "execve") (str "/src") []
              eq_refl eq_refl eq_refl eq_refl eq_refl) as (_ & _ & H3 & H4).
  split; [exact H3|exact H4].
Defined.

Lemma chain_entries_example :
  Forall (fun e =>
    formatted_entry (str "/src") [example_record_cc] e /\
    dom e = {["directory"; "command"; "file"]} /\
    exists f, e !! "file" = Some (PStr f) /\
              (PosixPath.isabs (str "/src") = true -> PosixPath.isabs f = true))
    [example_entry_cc].
Proof.
  apply (chain_entries example_classify (example_fs "/src") [example_record_cc]
           [example_entry_cc]).
  reflexivity.
Defined.

Lemma known_compiler_any_directory_example :
  known_compiler [str "/opt/cross/bin/arm-none-eabi-gcc"; str "-c"; str "a.c"]
  = Ok true.
Proof.
  apply (known_compiler_any_directory (str "/opt/cross/bin") (str "arm-none-eabi-gcc")
           [] [str "-c"; str "a.c"]).
  reflexivity.
Defined.

Lemma general_filter_yields_example :
  accepted_name (str "cc") /\
  forall arg, In arg [str "-c"; str "a.c"; str "-o"; str "a.o"] ->
    arg <> str "-cc1" /\ arg <> str "-cc1" ++ [Re.newline].
Proof.
  apply (proj1 (general_filter_yields example_record_cc (str "cc")
                  [str "-c"; str "a.c"; str "-o"; str "a.o"] eq_refl)).
  reflexivity.
Defined.

Lemma build_environment_variables_example :
  build_environment example_resource false example_environ (str "/tmp/bear-x")
    !! "BEAR_OUTPUT" = Some (str "/tmp/bear-x") /\
  build_environment example_resource false example_environ (str "/tmp/bear-x")
    !! "LD_PRELOAD" = Some (str "/usr/lib/python/analyzer/libear.so") /\
  build_environment example_resource false example_environ (str "/tmp/bear-x")
    !! "PATH" = Some (str "/usr/bin").
Proof.
  destruct (build_environment_variables example_resource false example_environ
              (str "/tmp/bear-x")) as (H1 & H2 & _ & H4).
  split; [exact H1|]. split; [exact H2|].
  rewrite (H4 "PATH"); [reflexivity|discriminate..].
Defined.

Lemma main_database_example :
  Forall (fun e => exists f, e !! "file" = Some (PStr f) /\
                             fs_exists (example_fs "/src") f = true)
    [example_entry_cc] /\
  (exists keys, traverse hash_cdb [example_entry_cc] = Ok keys /\ NoDup keys).
Proof.
  destruct (main_database example_classify example_build (str "/tmp/bear-x")
              (example_arguments false) 2%Z (example_fs "/src")
              (2%Z, [example_entry_cc]) eq_refl eq_refl) as (H1 & H2 & _).
  split; [exact H1|exact H2].
Defined.


Lemma collect_unfiltered_records_example :
  collect example_classify (example_fs_listing ["/tmp/bear-x/cmd.4711"]) false
    (str "/tmp/bear-x") = Ok [example_record_cc].
Proof.
  apply (proj2 (collect_unfiltered_records example_classify
                  (example_fs_listing ["/tmp/bear-x/cmd.4711"])
                  (str "/tmp/bear-x") [example_record_cc])).
  repeat constructor.
Defined.

Lemma chain_classifier_calls_example :
  chain example_classify (example_fs "/src") [example_record_cc1; example_record_cc]
  = chain (fun command =>
             if bool_decide (str "-cc1" ∈ command) then Raise TypeError
             else example_classify command)
      (example_fs "/src") [example_record_cc1; example_record_cc].
Proof.
  apply chain_classifier_calls.
  intros record command [<-|[<-|[]]] Hg Hc.
  - discriminate Hg.
  - injection Hc as <-. reflexivity.
Defined.

Lemma merge_order_insensitive_example :
  exists out' keys keys',
    merge (example_fs "/src") [example_entry_clang] [example_entry_cc] = Ok out' /\
    traverse hash_cdb [example_entry_cc] = Ok keys /\
    traverse hash_cdb out' = Ok keys' /\
    keys ≡ₚ keys' /\ length [example_entry_cc] = length out'.
Proof.
  apply (merge_order_insensitive (example_fs "/src") [example_entry_cc]
           [example_entry_clang] [example_entry_cc]).
  reflexivity.
Defined.
